(** * NodeModal: path-addressed read / project / merge / write

    A shallow embedding of [src/features/modals/NodeModal/index.tsx].

    The file follows the source top-down:
    - [JS]       the JavaScript values the component handles (JSON trees
                 plus [undefined]) and the property reads and writes the
                 source performs on them;
    - [Json]     [JSON.stringify (v, null, 2)] and [JSON.parse];
    - [Modal]    the module-level helpers ([normalizeNodeData],
                 [updateJsonAtPath]) and the component:
                 its React state, the render-time closures
                 ([getFreshContent], [getFullNodeObject],
                 [parseContentToKeyValues]) and the event handlers;
    - the properties.

    Modelling limits, stated once:
    - a JSON number is an integer ([Z]); literals with a fraction or an
      exponent are outside the value model;
    - a string is a sequence of bytes; a [\uXXXX] escape is read only when
      it denotes a code point below U+0080;
    - an object is an association list in insertion order with unique keys;
      the reordering JavaScript applies to integer-like keys is not
      modelled;
    - property reads see own properties only (nothing is inherited from
      [Object.prototype]), and the [length] property of sequences and
      strings is not modelled, neither read nor written;
    - integers are exact, where JavaScript rounds beyond 2^53. *)

From Stdlib Require Import List String Ascii ZArith NArith Lia Bool Arith
  FinFun.
Import ListNotations.

Set Warnings "-register-all".
Local Open Scope string_scope.

(* ================================================================== *)
(** * JavaScript values *)
(* ================================================================== *)

Module JS.

(** The value kinds [JSON.parse] produces. *)
Inductive value : Type :=
| JNull
| JBool (b : bool)
| JNum (n : Z)
| JStr (s : string)
| JArr (elems : list value)
| JObj (fields : list (string * value)).

(** A value of the language: a JSON tree, or [undefined]. *)
Definition jsval := option value.
Definition undefined : jsval := None.

(** A path segment is [string | number]. *)
Inductive segment : Type :=
| SKey (k : string)
| SIdx (i : nat).

Definition path := list segment.

(** [typeof v !== "object" || v === null] *)
Definition is_primitive (v : value) : bool :=
  match v with
  | JArr _ | JObj _ => false
  | _ => true
  end.

Definition is_compound (v : value) : bool := negb (is_primitive v).

(** [typeof v === "object" && v !== null && !Array.isArray(v)] *)
Definition is_plain_object (v : value) : bool :=
  match v with
  | JObj _ => true
  | _ => false
  end.

(** ** Objects as association lists *)

Definition fields := list (string * value).

Fixpoint lookup {A} (k : string) (o : list (string * A)) : option A :=
  match o with
  | [] => None
  | (k', v) :: o' => if String.eqb k k' then Some v else lookup k o'
  end.

Definition keys {A} (o : list (string * A)) : list string := map fst o.

Definition has_key {A} (k : string) (o : list (string * A)) : bool :=
  match lookup k o with Some _ => true | None => false end.

(** [CreateDataProperty]: what an object literal, a spread and
    [JSON.parse] do for a key.  An existing key keeps its position. *)
Fixpoint define {A} (k : string) (v : A) (o : list (string * A))
  : list (string * A) :=
  match o with
  | [] => [(k, v)]
  | (k', v') :: o' =>
      if String.eqb k k' then (k, v) :: o' else (k', v') :: define k v o'
  end.

Definition proto : string := "__proto__".

(** [o[k] = v] on an ordinary object.  An own property is overwritten.
    Otherwise the name [__proto__] reaches the accessor inherited from
    [Object.prototype]: the assignment creates no own property (it changes
    the prototype for an object or [null], and is ignored for any other
    value).  Any other absent name is added last. *)
Definition assign {A} (k : string) (v : A) (o : list (string * A))
  : list (string * A) :=
  if has_key k o then define k v o
  else if String.eqb k proto then o
  else define k v o.

(** ** Decimal rendering of array indices and numbers *)

Definition digit_char (d : N) : ascii :=
  ascii_of_N (48 + d).

Fixpoint digits_fuel (fuel : nat) (n : N) (acc : list ascii) : list ascii :=
  match fuel with
  | O => digit_char (n mod 10) :: acc
  | S f =>
      if (n <? 10)%N then digit_char n :: acc
      else digits_fuel f (n / 10)%N (digit_char (n mod 10) :: acc)
  end.

Definition digits_of_N (n : N) : list ascii :=
  digits_fuel (N.size_nat n) n [].

Definition digits_of_Z (z : Z) : list ascii :=
  if (z <? 0)%Z then "-"%char :: digits_of_N (Z.abs_N z)
  else digits_of_N (Z.abs_N z).

Definition is_digit (c : ascii) : bool :=
  let n := N_of_ascii c in ((48 <=? n) && (n <=? 57))%N.

Definition digit_val (c : ascii) : N := (N_of_ascii c - 48)%N.

Fixpoint N_of_digits (acc : N) (ds : list ascii) : N :=
  match ds with
  | [] => acc
  | d :: ds' => N_of_digits (10 * acc + digit_val d)%N ds'
  end.

(** [ToString] of a number used as a property key: its decimal
    rendering. *)
Definition index_key (i : nat) : string :=
  string_of_list_ascii (digits_of_N (N.of_nat i)).

(** The property a segment names. *)
Definition key_of_segment (s : segment) : string :=
  match s with
  | SKey k => k
  | SIdx i => index_key i
  end.

(** A property key is an array index when it is the canonical decimal
    rendering of a natural number. *)
Definition index_of_key (k : string) : option nat :=
  let ds := list_ascii_of_string k in
  match ds with
  | [] => None
  | _ =>
      if forallb is_digit ds then
        let n := N_of_digits 0 ds in
        if String.eqb (string_of_list_ascii (digits_of_N n)) k
        then Some (N.to_nat n) else None
      else None
  end.

Definition index_of_segment (s : segment) : option nat :=
  match s with
  | SIdx i => Some i
  | SKey k => index_of_key k
  end.

(** ** Property read [current[segment]] *)

Inductive outcome (A : Type) : Type :=
| Ok (a : A)
| Throw (msg : string).
Arguments Ok {A} a.
Arguments Throw {A} msg.

Definition bind {A B} (m : outcome A) (f : A -> outcome B) : outcome B :=
  match m with
  | Ok a => f a
  | Throw e => Throw e
  end.

Notation "x <- m ;; k" := (bind m (fun x => k))
  (at level 61, m at next level, right associativity).

Definition type_error : string := "TypeError".

(** The string of one character, as indexing a string returns it. *)
Definition char_at (t : string) (i : nat) : jsval :=
  option_map (fun c => JStr (String c "")) (nth_error (list_ascii_of_string t) i).

(** Reading a property of [undefined] or [null] throws a [TypeError]; an
    index reads an element of a sequence or a character of a string; a
    number or a boolean has no own property; an absent property reads as
    [undefined]. *)
Definition get (cur : jsval) (s : segment) : outcome jsval :=
  match cur with
  | None => Throw type_error
  | Some JNull => Throw type_error
  | Some (JObj o) => Ok (lookup (key_of_segment s) o)
  | Some (JArr l) =>
      match index_of_segment s with
      | Some i => Ok (nth_error l i)
      | None => Ok undefined
      end
  | Some (JStr t) =>
      match index_of_segment s with
      | Some i => Ok (char_at t i)
      | None => Ok undefined
      end
  | Some _ => Ok undefined
  end.

(** ** Property write [current[segment] = v]

    The module is strict-mode code: a write on a primitive throws, as does
    a write on [undefined] or [null].  A write past the end of an array
    leaves holes, which [JSON.stringify] renders as [null]; a write to a
    name that is not an index leaves the elements as they are. *)
Fixpoint set_nth (i : nat) (v : value) (l : list value) : list value :=
  match i, l with
  | O, [] => [v]
  | O, _ :: l' => v :: l'
  | S i', [] => JNull :: set_nth i' v []
  | S i', x :: l' => x :: set_nth i' v l'
  end.

Definition put (cur : jsval) (s : segment) (v : value) : outcome value :=
  match cur with
  | Some (JObj o) => Ok (JObj (assign (key_of_segment s) v o))
  | Some (JArr l) =>
      match index_of_segment s with
      | Some i => Ok (JArr (set_nth i v l))
      | None => Ok (JArr l)
      end
  | _ => Throw type_error
  end.

(** ** Well-formed trees

    The keys of an object are unique, at every depth. *)
Fixpoint wf (v : value) : Prop :=
  match v with
  | JArr l => (fix all (l : list value) : Prop :=
                 match l with
                 | [] => True
                 | x :: l' => wf x /\ all l'
                 end) l
  | JObj o => NoDup (map fst o) /\
              (fix all (o : list (string * value)) : Prop :=
                 match o with
                 | [] => True
                 | (_, x) :: o' => wf x /\ all o'
                 end) o
  | _ => True
  end.

Definition wf_list (l : list value) : Prop := Forall wf l.
Definition wf_fields (o : fields) : Prop :=
  NoDup (keys o) /\ Forall (fun kv => wf (snd kv)) o.

(** The number of nodes of a tree, counting each element once more for
    its place in the enclosing sequence. *)
Fixpoint size (v : value) : nat :=
  match v with
  | JArr l => S (fold_right (fun x acc => S (size x + acc)) 0 l)
  | JObj o => S (fold_right (fun kv acc => S (size (snd kv) + acc)) 0 o)
  | _ => 1
  end.

(** Induction over trees, with the hypothesis for every element and every
    field value. *)
Section ValueInduction.
Variable P : value -> Prop.
Hypothesis Hnull : P JNull.
Hypothesis Hbool : forall b, P (JBool b).
Hypothesis Hnum : forall n, P (JNum n).
Hypothesis Hstr : forall s, P (JStr s).
Hypothesis Harr : forall l, Forall P l -> P (JArr l).
Hypothesis Hobj : forall o, Forall (fun kv => P (snd kv)) o -> P (JObj o).

Fixpoint value_induction (v : value) : P v :=
  match v with
  | JNull => Hnull
  | JBool b => Hbool b
  | JNum n => Hnum n
  | JStr s => Hstr s
  | JArr l =>
      Harr l ((fix all (l : list value) : Forall P l :=
                 match l with
                 | [] => Forall_nil P
                 | x :: l' => Forall_cons x (value_induction x) (all l')
                 end) l)
  | JObj o =>
      Hobj o ((fix all (o : list (string * value))
                 : Forall (fun kv => P (snd kv)) o :=
                 match o with
                 | [] => Forall_nil _
                 | kv :: o' =>
                     Forall_cons kv (value_induction (snd kv)) (all o')
                 end) o)
  end.
End ValueInduction.

(** A language value is well formed when it is [undefined] or a well-formed
    tree. *)
Definition wf_js (v : jsval) : Prop :=
  match v with Some x => wf x | None => True end.

(** Fuel [f] suffices to render [n]: the renderer divides by ten at each
    step. *)
Definition enough (f : nat) (n : N) : Prop := (n < 10 * 2 ^ N.of_nat f)%N.

End JS.

(* ================================================================== *)
(** * JSON text *)
(* ================================================================== *)

Module Json.
Import JS.
Local Open Scope list_scope.

Definition text := list ascii.

Definition dquote : ascii := Eval cbv in ascii_of_nat 34.
Definition bslash : ascii := Eval cbv in ascii_of_nat 92.
Definition newline : ascii := Eval cbv in ascii_of_nat 10.
Definition ch_tab : ascii := Eval cbv in ascii_of_nat 9.
Definition ch_cr : ascii := Eval cbv in ascii_of_nat 13.
Definition ch_bs : ascii := Eval cbv in ascii_of_nat 8.
Definition ch_ff : ascii := Eval cbv in ascii_of_nat 12.

Definition chars (s : string) : text := list_ascii_of_string s.

(** ** [JSON.stringify (v, null, 2)] *)

Definition hex_char (d : N) : ascii :=
  if (d <? 10)%N then ascii_of_N (48 + d) else ascii_of_N (87 + d).

(** [QuoteJSONString], one code unit. *)
Definition escape (c : ascii) : text :=
  if Ascii.eqb c dquote then [bslash; dquote]
  else if Ascii.eqb c bslash then [bslash; bslash]
  else if Ascii.eqb c ch_bs then [bslash; "b"%char]
  else if Ascii.eqb c ch_ff then [bslash; "f"%char]
  else if Ascii.eqb c newline then [bslash; "n"%char]
  else if Ascii.eqb c ch_cr then [bslash; "r"%char]
  else if Ascii.eqb c ch_tab then [bslash; "t"%char]
  else if (N_of_ascii c <? 32)%N then
    [bslash; "u"%char; "0"%char; "0"%char;
     hex_char (N_of_ascii c / 16); hex_char (N_of_ascii c mod 16)]
  else [c].

Definition quote (s : string) : text :=
  dquote :: flat_map escape (chars s) ++ [dquote].

Definition spaces (n : nat) : text := repeat " "%char n.

(** The elements after the first, each behind a comma and a line break,
    then the closing bracket on a line of its own. *)
Definition elements_tail (pr : value -> text) (ind : nat)
  : list value -> text :=
  fix rest (l : list value) : text :=
    match l with
    | [] => newline :: spaces ind ++ ["]"%char]
    | y :: l' => ","%char :: newline :: spaces (ind + 2) ++ pr y ++ rest l'
    end.

Definition member (pr : value -> text) (k : string) (x : value) : text :=
  quote k ++ ":"%char :: " "%char :: pr x.

Definition members_tail (pr : value -> text) (ind : nat)
  : list (string * value) -> text :=
  fix rest (l : list (string * value)) : text :=
    match l with
    | [] => newline :: spaces ind ++ ["}"%char]
    | (k, y) :: l' =>
        ","%char :: newline :: spaces (ind + 2) ++ member pr k y ++ rest l'
    end.

Fixpoint print (ind : nat) (v : value) : text :=
  match v with
  | JNull => chars "null"
  | JBool true => chars "true"
  | JBool false => chars "false"
  | JNum n => digits_of_Z n
  | JStr s => quote s
  | JArr [] => chars "[]"
  | JArr (x :: xs) =>
      "["%char :: newline :: spaces (ind + 2) ++ print (ind + 2) x ++
      elements_tail (print (ind + 2)) ind xs
  | JObj [] => chars "{}"
  | JObj ((k, x) :: xs) =>
      "{"%char :: newline :: spaces (ind + 2) ++
      member (print (ind + 2)) k x ++
      members_tail (print (ind + 2)) ind xs
  end.

Definition stringify (v : value) : string :=
  string_of_list_ascii (print 0 v).

(** [JSON.stringify] of a language value: [undefined] is not serialised,
    the call returns [undefined]. *)
Definition stringify_js (v : jsval) : option string :=
  option_map stringify v.

(** ** [JSON.parse] *)

Definition is_ws (c : ascii) : bool :=
  Ascii.eqb c " "%char || Ascii.eqb c newline
  || Ascii.eqb c ch_tab || Ascii.eqb c ch_cr.

Fixpoint skip_ws (s : text) : text :=
  match s with
  | c :: r => if is_ws c then skip_ws r else s
  | [] => []
  end.

Fixpoint strip_prefix (p s : text) : option text :=
  match p, s with
  | [], _ => Some s
  | a :: p', b :: s' => if Ascii.eqb a b then strip_prefix p' s' else None
  | _ :: _, [] => None
  end.

Fixpoint span_digits (s : text) : text * text :=
  match s with
  | c :: r =>
      if is_digit c then let (ds, r') := span_digits r in (c :: ds, r')
      else ([], s)
  | [] => ([], [])
  end.

Definition starts_fraction (s : text) : bool :=
  match s with
  | c :: _ =>
      Ascii.eqb c "."%char || Ascii.eqb c "e"%char || Ascii.eqb c "E"%char
  | [] => false
  end.

(** The integer part of the number grammar: an optional sign, then [0] or
    a digit sequence without a leading zero. *)
Definition parse_number (s : text) : option (Z * text) :=
  let (neg, s1) :=
    match s with
    | c :: r => if Ascii.eqb c "-"%char then (true, r) else (false, s)
    | [] => (false, s)
    end in
  let (ds, r) := span_digits s1 in
  match ds with
  | [] => None
  | d :: ds' =>
      if Ascii.eqb d "0"%char && negb (Nat.eqb (List.length ds') 0) then None
      else if starts_fraction r then None
      else
        let n := Z.of_N (N_of_digits 0 ds) in
        Some (if neg then (- n)%Z else n, r)
  end.

Definition hex_val (c : ascii) : option N :=
  let n := N_of_ascii c in
  if ((48 <=? n) && (n <=? 57))%N then Some (n - 48)%N
  else if ((97 <=? n) && (n <=? 102))%N then Some (n - 87)%N
  else if ((65 <=? n) && (n <=? 70))%N then Some (n - 55)%N
  else None.

Definition unescape (c : ascii) : option ascii :=
  if Ascii.eqb c dquote then Some dquote
  else if Ascii.eqb c bslash then Some bslash
  else if Ascii.eqb c "/"%char then Some "/"%char
  else if Ascii.eqb c "b"%char then Some ch_bs
  else if Ascii.eqb c "f"%char then Some ch_ff
  else if Ascii.eqb c "n"%char then Some newline
  else if Ascii.eqb c "r"%char then Some ch_cr
  else if Ascii.eqb c "t"%char then Some ch_tab
  else None.

Definition hex4 (a b c d : ascii) : option N :=
  match hex_val a, hex_val b, hex_val c, hex_val d with
  | Some x, Some y, Some z, Some w =>
      Some (((x * 16 + y) * 16 + z) * 16 + w)%N
  | _, _, _, _ => None
  end.

(** The characters of a string literal after its opening quote, up to and
    including the closing quote. *)
Fixpoint parse_chars (s : text) : option (text * text) :=
  match s with
  | [] => None
  | c :: r =>
      if Ascii.eqb c dquote then Some ([], r)
      else if Ascii.eqb c bslash then
        match r with
        | [] => None
        | e :: r1 =>
            if Ascii.eqb e "u"%char then
              match r1 with
              | h1 :: h2 :: h3 :: h4 :: r2 =>
                  match hex4 h1 h2 h3 h4 with
                  | Some n =>
                      if (n <? 128)%N then
                        match parse_chars r2 with
                        | Some (cs, r3) => Some (ascii_of_N n :: cs, r3)
                        | None => None
                        end
                      else None
                  | None => None
                  end
              | _ => None
              end
            else
              match unescape e with
              | Some c' =>
                  match parse_chars r1 with
                  | Some (cs, r3) => Some (c' :: cs, r3)
                  | None => None
                  end
              | None => None
              end
        end
      else if (N_of_ascii c <? 32)%N then None
      else
        match parse_chars r with
        | Some (cs, r3) => Some (c :: cs, r3)
        | None => None
        end
  end.

Definition parse_string (s : text) : option (string * text) :=
  match s with
  | c :: r =>
      if Ascii.eqb c dquote then
        match parse_chars r with
        | Some (cs, r') => Some (string_of_list_ascii cs, r')
        | None => None
        end
      else None
  | [] => None
  end.

(** Members are entered with [CreateDataProperty]: of two members with one
    key the later value wins, at the earlier position. *)
Definition object_of_members (ms : list (string * value)) : value :=
  JObj (fold_left (fun o kv => define (fst kv) (snd kv) o) ms []).

Fixpoint parse_value (fuel : nat) (s : text) : option (value * text) :=
  match fuel with
  | O => None
  | S f =>
      match skip_ws s with
      | [] => None
      | c :: r =>
          if Ascii.eqb c "n"%char then
            option_map (fun r' => (JNull, r')) (strip_prefix (chars "ull") r)
          else if Ascii.eqb c "t"%char then
            option_map (fun r' => (JBool true, r'))
                       (strip_prefix (chars "rue") r)
          else if Ascii.eqb c "f"%char then
            option_map (fun r' => (JBool false, r'))
                       (strip_prefix (chars "alse") r)
          else if Ascii.eqb c dquote then
            option_map (fun p => (JStr (fst p), snd p))
                       (parse_string (c :: r))
          else if Ascii.eqb c "["%char then
            match skip_ws r with
            | c' :: r' =>
                if Ascii.eqb c' "]"%char then Some (JArr [], r')
                else option_map (fun p => (JArr (fst p), snd p))
                                (parse_elements f r)
            | [] => None
            end
          else if Ascii.eqb c "{"%char then
            match skip_ws r with
            | c' :: r' =>
                if Ascii.eqb c' "}"%char then Some (JObj [], r')
                else option_map (fun p => (object_of_members (fst p), snd p))
                                (parse_members f r)
            | [] => None
            end
          else
            option_map (fun p => (JNum (fst p), snd p))
                       (parse_number (c :: r))
      end
  end

with parse_elements (fuel : nat) (s : text) : option (list value * text) :=
  match fuel with
  | O => None
  | S f =>
      match parse_value f s with
      | Some (v, r) =>
          match skip_ws r with
          | c :: r' =>
              if Ascii.eqb c ","%char then
                option_map (fun p => (v :: fst p, snd p)) (parse_elements f r')
              else if Ascii.eqb c "]"%char then Some ([v], r')
              else None
          | [] => None
          end
      | None => None
      end
  end

with parse_members (fuel : nat) (s : text)
  : option (list (string * value) * text) :=
  match fuel with
  | O => None
  | S f =>
      match parse_string (skip_ws s) with
      | Some (k, r0) =>
          match skip_ws r0 with
          | c0 :: r1 =>
              if Ascii.eqb c0 ":"%char then
                match parse_value f r1 with
                | Some (v, r) =>
                    match skip_ws r with
                    | c :: r' =>
                        if Ascii.eqb c ","%char then
                          option_map (fun p => ((k, v) :: fst p, snd p))
                                     (parse_members f r')
                        else if Ascii.eqb c "}"%char then Some ([(k, v)], r')
                        else None
                    | [] => None
                    end
                | None => None
                end
              else None
          | [] => None
          end
      | None => None
      end
  end.

(** [JSON.parse text]; [None] stands for the [SyntaxError] it throws. *)
Definition parse (t : string) : option value :=
  let s := chars t in
  match parse_value (S (List.length s)) s with
  | Some (v, r) =>
      match skip_ws r with
      | [] => Some v
      | _ :: _ => None
      end
  | None => None
  end.

(** [JSON.parse] applied to a value that may be [undefined]: the argument
    is first converted to the string [undefined], which is not JSON. *)
Definition parse_js (t : option string) : option value :=
  match t with
  | Some s => parse s
  | None => None
  end.

(** ** Notions for the round trip of [parse] and [stringify] *)

(** What may follow a value in a serialised text. *)
Definition delimited (r : text) : Prop :=
  match r with
  | [] => True
  | c :: _ => c = newline \/ c = ","%char
  end.

(** The first character of a serialised value. *)
Definition opens (c : ascii) : Prop :=
  is_ws c = false /\ Ascii.eqb c "]"%char = false /\
  Ascii.eqb c "}"%char = false.

(** Parsing the rendering of [v], at any indentation and before any
    delimiter, gives [v] back and leaves what follows. *)
Definition roundtrips (v : value) : Prop :=
  forall ind fuel r, size v <= fuel -> delimited r ->
  parse_value fuel (print ind v ++ r) = Some (v, r).

(** The fuel the elements of a sequence need. *)
Definition elements_size (l : list value) : nat :=
  fold_right (fun x acc => S (size x + acc)) 0 l.

(** The fuel the members of an object need. *)
Definition members_size (o : fields) : nat :=
  fold_right (fun kv acc => S (size (snd kv) + acc)) 0 o.

End Json.

(* ================================================================== *)
(** * The component *)
(* ================================================================== *)

Module Modal.
Import JS Json.

(** ** Node data *)

(** Modelled from the spec: the declaration of [NodeData] ([types/graph])
    is not among the sources.  A node carries the path that locates it in
    the document and the rows of its last rendering (the last-known node
    snapshot); a row has the fields this file reads: [key], [value] and
    [type]. *)
Record NodeRow : Type := mkRow {
  row_key : option string;
  row_value : value;
  row_type : string
}.

Record NodeData : Type := mkNode {
  node_path : option path;
  node_text : list NodeRow
}.

(** Template-literal conversion [`${v}`]. *)
Fixpoint to_string (v : value) : string :=
  match v with
  | JNull => "null"
  | JBool true => "true"
  | JBool false => "false"
  | JNum n => string_of_list_ascii (digits_of_Z n)
  | JStr s => s
  | JArr l =>
      (fix join (l : list value) : string :=
         match l with
         | [] => ""
         | [x] => match x with JNull => "" | _ => to_string x end
         | x :: l' =>
             (match x with JNull => "" | _ => to_string x end)
               ++ "," ++ join l'
         end) l
  | JObj _ => "[object Object]"
  end.

(** A key is used when it is truthy: neither [null] nor empty. *)
Definition truthy_key (k : option string) : option string :=
  match k with
  | Some "" => None
  | _ => k
  end.

Definition normalize_row (obj : fields) (row : NodeRow) : fields :=
  if negb (String.eqb (row_type row) "array")
     && negb (String.eqb (row_type row) "object")
  then match truthy_key (row_key row) with
       | Some k => assign k (row_value row) obj
       | None => obj
       end
  else obj.

Definition normalizeNodeData (nodeRows : list NodeRow) : string :=
  match nodeRows with
  | [] => "{}"
  | [row] =>
      match truthy_key (row_key row) with
      | None => to_string (row_value row)
      | Some _ => stringify (JObj (fold_left normalize_row nodeRows []))
      end
  | _ => stringify (JObj (fold_left normalize_row nodeRows []))
  end.

(** ** [updateJsonAtPath] *)

(** The loop [current = current[segment]]. *)
Fixpoint walk (cur : jsval) (p : path) : outcome jsval :=
  match p with
  | [] => Ok cur
  | seg :: p' => next <- get cur seg ;; walk next p'
  end.

(** The child at [seg] of a compound value, exchanged for [child]. *)
Definition with_child (cur : jsval) (seg : segment) (child : value)
  : outcome value :=
  match cur with
  | Some (JObj o) => Ok (JObj (define (key_of_segment seg) child o))
  | Some (JArr l) =>
      match index_of_segment seg with
      | Some i => Ok (JArr (set_nth i child l))
      | None => Throw type_error
      end
  | _ => Throw type_error
  end.

(** The walk to the parent of the last segment followed by the assignment
    [current[lastKey] = v], seen from the root: the assignment mutates the
    parent in place, so every value on the way down is the same tree with
    that one child changed. *)
Fixpoint assign_at (cur : jsval) (p : path) (v : value) : outcome value :=
  match p with
  | [] => Ok v
  | [lastKey] => put cur lastKey v
  | seg :: p' =>
      next <- get cur seg ;;
      next' <- assign_at next p' v ;;
      with_child cur seg next'
  end.

Definition invalid_json : string := "Invalid JSON format".

Definition no_path (p : option path) : bool :=
  match p with
  | None | Some [] => true
  | Some (_ :: _) => false
  end.

Definition path_or_nil (p : option path) : path :=
  match p with Some l => l | None => [] end.

Definition updateJsonAtPath (jsonString : string) (p : option path)
  (newValue : string) : outcome string :=
  match parse jsonString, parse newValue with
  | Some parsedJson, Some parsedNewValue =>
      if no_path p then Ok (stringify parsedNewValue)
      else
        match assign_at (Some parsedJson) (path_or_nil p) parsedNewValue with
        | Ok updated => Ok (stringify updated)
        | Throw _ => Throw invalid_json
        end
  | _, _ => Throw invalid_json
  end.

(** ** State of the component and of its collaborators *)

(** Calls observed from outside, latest first. *)
Inductive event : Type :=
| SetOptimisticContent (c : option string)
| SetContents (contents : string) (hasChanges : bool)
| ToastSuccess (msg : string)
| ToastError (msg : string)
| OnClose.

Record state : Type := mkState {
  opened : bool;
  nodeData : option NodeData;
  json : string;
  isEditing : bool;
  editedValues : list (string * string);
  optimisticContent : option string;
  trace : list event
}.

Definition setIsEditing (b : bool) (st : state) : state :=
  mkState (opened st) (nodeData st) (json st) b (editedValues st)
          (optimisticContent st) (trace st).

Definition setEditedValues (ev : list (string * string)) (st : state)
  : state :=
  mkState (opened st) (nodeData st) (json st) (isEditing st) ev
          (optimisticContent st) (trace st).

Definition setOptimisticContent (c : option string) (st : state) : state :=
  mkState (opened st) (nodeData st) (json st) (isEditing st)
          (editedValues st) c (SetOptimisticContent c :: trace st).

Definition emit (e : event) (st : state) : state :=
  mkState (opened st) (nodeData st) (json st) (isEditing st)
          (editedValues st) (optimisticContent st) (e :: trace st).

Definition selected_path (st : state) : option path :=
  match nodeData st with
  | Some nd => node_path nd
  | None => None
  end.

Definition selected_text (st : state) : list NodeRow :=
  match nodeData st with
  | Some nd => node_text nd
  | None => []
  end.

(** ** Closures of a render *)

(** [Object.entries(o).forEach] keeping the primitive-valued entries. *)
Definition keep_primitive (filtered : fields) (kv : string * value)
  : fields :=
  if is_primitive (snd kv) then assign (fst kv) (snd kv) filtered
  else filtered.

Definition filter_primitives (o : fields) : fields :=
  fold_left keep_primitive o [].

(** The text shown for the value the path leads to: an object loses its
    array- and object-valued fields, anything else is serialised whole. *)
Definition node_content (current : jsval) : option string :=
  match current with
  | Some (JObj o) => Some (stringify (JObj (filter_primitives o)))
  | _ => stringify_js current
  end.

(** The part of [getFreshContent] inside [try]; a [Throw] is what the
    [catch] receives. *)
Definition fresh_from_store (st : state) : outcome (option string) :=
  match parse (json st) with
  | None => Throw "SyntaxError"
  | Some parsedJson =>
      if no_path (selected_path st) then Ok (Some (stringify parsedJson))
      else
        current <- walk (Some parsedJson) (path_or_nil (selected_path st)) ;;
        Ok (node_content current)
  end.

Definition truthy (c : option string) : bool :=
  match c with
  | Some "" | None => false
  | Some _ => true
  end.

Definition getFreshContent (st : state) : outcome (option string) :=
  if truthy (optimisticContent st) then Ok (optimisticContent st)
  else
    match fresh_from_store st with
    | Ok c => Ok c
    | Throw _ => Ok (Some (normalizeNodeData (selected_text st)))
    end.

Definition getFullNodeObject (st : state) : jsval :=
  match parse (json st) with
  | None => Some (JObj [])
  | Some parsedJson =>
      if no_path (selected_path st) then Some parsedJson
      else
        match walk (Some parsedJson) (path_or_nil (selected_path st)) with
        | Ok current => current
        | Throw _ => Some (JObj [])
        end
  end.

(** [typeof value === "string" ? value : JSON.stringify(value)] *)
Definition render (v : value) : string :=
  match v with
  | JStr s => s
  | _ => stringify v
  end.

Definition render_entry (result : list (string * string))
  (kv : string * value) : list (string * string) :=
  if is_primitive (snd kv) then assign (fst kv) (render (snd kv)) result
  else result.

Definition parseContentToKeyValues (content : option string)
  : list (string * string) :=
  match parse_js content with
  | Some (JObj o) => fold_left render_entry o []
  | _ => []
  end.

(** The projection of a node: what [parseContentToKeyValues] makes of the
    content [getFreshContent] computes for it. *)
Definition project (node : jsval) : list (string * string) :=
  parseContentToKeyValues (node_content node).

(** A projection read as a node: an object whose values are strings. *)
Definition as_node (kv : list (string * string)) : value :=
  JObj (map (fun e => (fst e, JStr (snd e))) kv).

(** The literal text of a primitive value. *)
Definition literal (v : value) : string :=
  match v with
  | JNull => "null"
  | JBool true => "true"
  | JBool false => "false"
  | JNum n => string_of_list_ascii (digits_of_Z n)
  | JStr s => s
  | _ => ""
  end.

(** The content shown by a render.  [getFreshContent] has no throwing
    case, so the second branch is never taken. *)
Definition originalContent (st : state) : option string :=
  match getFreshContent st with
  | Ok c => c
  | Throw _ => None
  end.

(** ** Effects *)

(** [useEffect (..., [opened, originalContent, isEditing])] *)
Definition effect_sync (st : state) : state :=
  if opened st && negb (isEditing st)
  then setEditedValues (parseContentToKeyValues (originalContent st)) st
  else st.

(** [useEffect (..., [opened])] *)
Definition effect_opened (st : state) : state :=
  if opened st then setOptimisticContent None st else st.

(** The parent opens the modal: both effects run on the render that sees
    [opened], and the first runs again on the render that follows the
    state change of the second. *)
Definition openSession (st : state) : state :=
  let st1 := mkState true (nodeData st) (json st) (isEditing st)
                     (editedValues st) (optimisticContent st) (trace st) in
  let ev := parseContentToKeyValues (originalContent st1) in
  let st2 := if isEditing st1 then st1 else setEditedValues ev st1 in
  effect_sync (setOptimisticContent None st2).

(** ** Event handlers *)

Definition handleEdit (st : state) : state :=
  setEditedValues (parseContentToKeyValues (originalContent st))
                  (setIsEditing true st).

Definition handleCancel (st : state) : state :=
  setEditedValues (parseContentToKeyValues (originalContent st))
                  (setIsEditing false st).

(** [{ ...prev, [key]: value }] *)
Definition handleValueChange (key value : string) (st : state) : state :=
  setEditedValues (define key value (editedValues st)) st.

(** Object spread [{ ...v }]: the own enumerable properties of [v]. *)
Fixpoint indexed (i : nat) (l : list value) : fields :=
  match l with
  | [] => []
  | x :: l' => (index_key i, x) :: indexed (S i) l'
  end.

Definition spread (v : jsval) : fields :=
  match v with
  | Some (JObj o) => o
  | Some (JArr l) => indexed 0 l
  | Some (JStr s) =>
      indexed 0 (map (fun c => JStr (String c "")) (chars s))
  | _ => []
  end.

(** [try { mergedObj[key] = JSON.parse(value) }
     catch { mergedObj[key] = value }] *)
Definition reinterpret (text : string) : value :=
  match parse text with
  | Some v => v
  | None => JStr text
  end.

Definition merge_entry (mergedObj : fields) (kv : string * string)
  : fields :=
  assign (fst kv) (reinterpret (snd kv)) mergedObj.

Definition merge (fullNodeObject : jsval)
  (edits : list (string * string)) : fields :=
  fold_left merge_entry edits (spread fullNodeObject).

Definition success_message : string := "JSON updated successfully".

(** The state setters called before a throw keep their effect: the
    [catch] only notifies.  The call to the store ([setContents]) is
    recorded in the trace and taken to return normally. *)

Definition handleSave (st : state) : state :=
  let mergedObj := merge (getFullNodeObject st) (editedValues st) in
  let mergedJson := stringify (JObj mergedObj) in
  let st1 :=
    setOptimisticContent
      (Some (stringify (JObj (filter_primitives mergedObj)))) st in
  match updateJsonAtPath (json st) (selected_path st) mergedJson with
  | Ok updatedJson =>
      emit (ToastSuccess success_message)
           (setIsEditing false (emit (SetContents updatedJson true) st1))
  | Throw msg => emit (ToastError msg) st1
  end.

Definition handleClose (st : state) : state :=
  emit OnClose (setOptimisticContent None (setIsEditing false st)).

(** Whether the save issued from [st] completes or reaches the [catch]. *)
Definition save_fails (st : state) : bool :=
  match updateJsonAtPath (json st) (selected_path st)
          (stringify (JObj (merge (getFullNodeObject st) (editedValues st))))
  with
  | Ok _ => false
  | Throw _ => true
  end.

(** The overlay of the specification: Empty or Holding a value. *)
Definition holding (st : state) : bool := truthy (optimisticContent st).

(** The key/value pairs a render offers for editing. *)
Definition keyValuePairs (st : state) : list (string * string) :=
  parseContentToKeyValues (originalContent st).

(** The store holds a document and the selected path can be written:
    every step to the parent of the last segment finds a value, and the
    parent accepts a property. *)
Definition writable (st : state) : bool :=
  match parse (json st) with
  | None => false
  | Some d =>
      if no_path (selected_path st) then true
      else
        match assign_at (Some d) (path_or_nil (selected_path st)) JNull with
        | Ok _ => true
        | Throw _ => false
        end
  end.

(** The overlay value a save computes: the content of the merged node. *)
Definition saved_content (st : state) : option string :=
  node_content
    (Some (JObj (merge (getFullNodeObject st) (editedValues st)))).

(** ** Sessions used as examples *)

Definition quoted (s : string) : string :=
  String dquote (s ++ String dquote "").

(** A freshly opened session on [document] with [p] selected. *)
Definition session (document : string) (p : path) : state :=
  mkState true (Some (mkNode (Some p) [])) document false [] None [].

(** The document [{"x":5}]. *)
Definition doc_x5 : string := "{" ++ quoted "x" ++ ":5}".

(** The document [{"a":{"b":1,"c":[1,2]}}]. *)
Definition doc_abc : string :=
  "{" ++ quoted "a" ++ ":{" ++ quoted "b" ++ ":1," ++ quoted "c"
      ++ ":[1,2]}}".

(** An editing session whose store holds text that is not JSON. *)
Definition broken_session : state :=
  mkState true (Some (mkNode (Some [SKey "a"]) [])) "{bad" true
          [("b"%string, "5"%string)] None [].

(** The session after [x] was edited to [hello], saved, and edited again. *)
Definition resaved_session : state :=
  handleEdit (handleSave (handleValueChange "x" "hello"
                            (handleEdit (session doc_x5 [])))).

(** ** Notions used in the statements *)

(** Which fields survive the loop over the entries of an object. *)
Definition editable (k : string) (v : value) : bool :=
  is_primitive v && negb (String.eqb k proto).

(** ** Path display *)

(** [typeof seg === "number" ? seg : `"${seg}"`]; the number is rendered
    when [join] concatenates. *)
Definition segment_text (seg : segment) : string :=
  match seg with
  | SIdx i => index_key i
  | SKey k => quoted k
  end.

(** [Array.prototype.join] *)
Fixpoint join (sep : string) (l : list string) : string :=
  match l with
  | [] => ""
  | [x] => x
  | x :: l' => x ++ sep ++ join sep l'
  end.

Definition jsonPathToString (p : option path) : string :=
  if no_path p then "$"
  else "$[" ++ join "][" (map segment_text (path_or_nil p)) ++ "]".

(** ** What a render offers *)

(** [Object.keys(keyValuePairs).length > 0] *)
Definition hasKeyValuePairs (st : state) : bool :=
  negb (Nat.eqb (List.length (keyValuePairs st)) 0).

(** The Edit button is rendered outside edit mode, when there are
    key/value pairs. *)
Definition offersEdit (st : state) : bool :=
  negb (isEditing st) && hasKeyValuePairs st.

(** ** Notions used in the further properties *)

(** The session once the store holds [document] and the overlay is
    gone. *)
Definition caught_up (document : string) (st : state) : state :=
  mkState (opened st) (nodeData st) document (isEditing st)
          (editedValues st) None (trace st).

(** A series of [handleValueChange] calls. *)
Definition apply_changes (changes : list (string * string)) (st : state)
  : state :=
  fold_left (fun s c => handleValueChange (fst c) (snd c) s) changes st.

(** A key without a double quote. *)
Definition quote_free (k : string) : bool :=
  forallb (fun c => negb (Ascii.eqb c dquote)) (chars k).

Definition plain_segment (seg : segment) : bool :=
  match seg with
  | SIdx _ => true
  | SKey k => quote_free k
  end.

(** The sequence [l] with [v] at index [i]: in place of the element there,
    or behind as many [null]s as it takes to reach [i]. *)
Definition padded (i : nat) (v : value) (l : list value) : list value :=
  (firstn i l ++ repeat JNull (i - List.length l) ++ v :: skipn (S i) l)%list.

(** The fields of an object that the projection shows, in their order. *)
Definition editable_fields (o : fields) : fields :=
  filter (fun kv => editable (fst kv) (snd kv)) o.

(** A text that is JSON and that [parse] does not read holds a number with
    a fraction or an exponent, so a digit and one of [.], [e] and [E], or
    an escape, so a backslash. *)
Definition beyond_model (s : string) : bool :=
  (existsb is_digit (chars s)
   && existsb (fun c => Ascii.eqb c "."%char || Ascii.eqb c "e"%char
                        || Ascii.eqb c "E"%char) (chars s))
  || existsb (fun c => Ascii.eqb c bslash) (chars s).

(** A field value that a save without edits gives back as it was: anything
    but a string whose text is itself JSON.  For a string, [parse] decides
    on texts it reads as JavaScript does. *)
Definition stable (v : value) : Prop :=
  match v with
  | JStr s => parse s = None /\ beyond_model s = false
  | _ => True
  end.

(** The display of a path after the root sign: each segment in brackets,
    one after the other. *)
Fixpoint brackets (p : path) : string :=
  match p with
  | [] => ""
  | seg :: p' => ("[" ++ segment_text seg ++ "]" ++ brackets p')%string
  end.

(** The characters of a segment as it is displayed. *)
Definition segment_chars (seg : segment) : text :=
  match seg with
  | SIdx i => digits_of_N (N.of_nat i)
  | SKey k => dquote :: chars k ++ [dquote]
  end.

(** Rows that [normalizeNodeData] renders as an object. *)
Definition object_rows (rows : list NodeRow) : Prop :=
  match rows with
  | [row] => truthy_key (row_key row) <> None
  | _ => True
  end.

(** A row that [normalizeNodeData] enters under [k]. *)
Definition enters (k : string) (v : value) (row : NodeRow) : Prop :=
  truthy_key (row_key row) = Some k /\ row_value row = v
  /\ row_type row <> "array"%string /\ row_type row <> "object"%string.

(** ** Notions used to state what the fallback content holds *)




(** ** Notions used to state how a segment is displayed *)

(** The characters [cs] spell the segment: a key between double quotes,
    as it is; an index in decimal, that is, in digits that read as the
    index, without a leading zero. *)
Definition spells (seg : segment) (cs : text) : Prop :=
  match seg with
  | SKey k => cs = (dquote :: chars k ++ [dquote])%list
  | SIdx i =>
      forallb is_digit cs = true
      /\ N_of_digits 0 cs = N.of_nat i
      /\ (cs = ["0"%char] \/ exists c t, cs = c :: t /\ c <> "0"%char)
  end.

End Modal.

(* ================================================================== *)
(** * Properties *)
(* ================================================================== *)

Import JS Json Modal.
Local Open Scope list_scope.

(** ** Decimal rendering *)


Lemma size_nat_bound (n : N) : (n < 2 ^ N.of_nat (N.size_nat n))%N.
Proof.
  destruct n as [|p]; [reflexivity|].
  simpl N.size_nat.
  induction p as [p IH|p IH|]; cbn [Pos.size_nat].
  - rewrite Nat2N.inj_succ, N.pow_succ_r'. lia.
  - rewrite Nat2N.inj_succ, N.pow_succ_r'. lia.
  - reflexivity.
Qed.

Lemma digits_fuel_acc (f : nat) :
  forall n acc, digits_fuel f n acc = digits_fuel f n [] ++ acc.
Proof.
  induction f as [|f IH]; intros n acc; cbn [digits_fuel].
  - reflexivity.
  - destruct (n <? 10)%N; [reflexivity|].
    rewrite IH, (IH _ [_]), <- app_assoc. reflexivity.
Qed.

Lemma N_of_digits_app (l1 l2 : list ascii) :
  forall a, N_of_digits a (l1 ++ l2) = N_of_digits (N_of_digits a l1) l2.
Proof. induction l1 as [|d l1 IH]; intros a; cbn; [reflexivity|apply IH]. Qed.

Ltac small_N d :=
  let p := fresh "p" in
  destruct d as [|p]; [|do 4 (try destruct p as [p|p|]); try lia].

Lemma digit_val_char (d : N) : (d < 10)%N -> digit_val (digit_char d) = d.
Proof. intros H. small_N d; reflexivity. Qed.

Lemma is_digit_char (d : N) : (d < 10)%N -> is_digit (digit_char d) = true.
Proof. intros H. small_N d; reflexivity. Qed.


Lemma enough_div (f : nat) (n : N) :
  enough (S f) n -> enough f (n / 10).
Proof.
  unfold enough. rewrite Nat2N.inj_succ, N.pow_succ_r'. intros H.
  apply N.Div0.div_lt_upper_bound. lia.
Qed.

Lemma digits_fuel_value (f : nat) :
  forall n, enough f n -> N_of_digits 0 (digits_fuel f n []) = n.
Proof.
  induction f as [|f IH]; intros n H; cbn [digits_fuel].
  - unfold enough in H. cbn in H. cbn [N_of_digits].
    rewrite digit_val_char by (apply N.mod_lt; lia).
    rewrite N.mod_small; lia.
  - destruct (N.ltb_spec n 10).
    + cbn [N_of_digits]. rewrite digit_val_char; lia.
    + rewrite digits_fuel_acc, N_of_digits_app, IH by (apply enough_div, H).
      cbn [N_of_digits]. rewrite digit_val_char by (apply N.mod_lt; lia).
      pose proof (N.div_mod n 10). lia.
Qed.

Lemma digits_fuel_all (f : nat) :
  forall n, forallb is_digit (digits_fuel f n []) = true.
Proof.
  induction f as [|f IH]; intros n; cbn [digits_fuel].
  - cbn. rewrite is_digit_char by (apply N.mod_lt; lia). reflexivity.
  - destruct (N.ltb_spec n 10).
    + cbn. rewrite is_digit_char by lia. reflexivity.
    + rewrite digits_fuel_acc, forallb_app, IH. cbn.
      rewrite is_digit_char by (apply N.mod_lt; lia). reflexivity.
Qed.

(** The rendering of a positive number starts with a digit other than 0;
    the rendering of 0 is the single digit 0. *)
Lemma digits_fuel_head (f : nat) :
  forall n, enough f n -> (0 < n)%N ->
  exists d ds, digits_fuel f n [] = digit_char d :: ds /\ (0 < d < 10)%N.
Proof.
  induction f as [|f IH]; intros n H Hpos; cbn [digits_fuel].
  - unfold enough in H. cbn in H. exists n, [].
    rewrite N.mod_small by lia. split; [reflexivity|lia].
  - destruct (N.ltb_spec n 10).
    + exists n, []. split; [reflexivity|lia].
    + destruct (IH (n / 10)%N) as (d & ds & E & Hd).
      * apply enough_div, H.
      * apply N.div_str_pos. lia.
      * rewrite digits_fuel_acc, E. exists d, (ds ++ [digit_char (n mod 10)]).
        split; [reflexivity|exact Hd].
Qed.

Lemma enough_size (n : N) : enough (N.size_nat n) n.
Proof. unfold enough. pose proof (size_nat_bound n). lia. Qed.

Lemma digits_of_N_value (n : N) : N_of_digits 0 (digits_of_N n) = n.
Proof. apply digits_fuel_value, enough_size. Qed.

Lemma digits_of_N_all (n : N) : forallb is_digit (digits_of_N n) = true.
Proof. apply digits_fuel_all. Qed.

Lemma digits_of_N_shape (n : N) :
  digits_of_N n = ["0"%char] \/
  exists d ds, digits_of_N n = digit_char d :: ds /\ (0 < d < 10)%N.
Proof.
  destruct (N.eq_dec n 0) as [->|Hn]; [left; reflexivity|right].
  apply digits_fuel_head; [apply enough_size|lia].
Qed.

Lemma parse_chars_escape (c : ascii) (r : text) :
  parse_chars (escape c ++ r) =
  match parse_chars r with
  | Some (cs, r3) => Some (c :: cs, r3)
  | None => None
  end.
Proof. destruct c as [[] [] [] [] [] [] [] []]; reflexivity. Qed.

Lemma parse_chars_quoted (cs : text) (r : text) :
  parse_chars (flat_map escape cs ++ dquote :: r) = Some (cs, r).
Proof.
  induction cs as [|c cs IH]; cbn [flat_map].
  - reflexivity.
  - rewrite <- app_assoc, parse_chars_escape, IH. reflexivity.
Qed.

Lemma parse_string_quote (s : string) (r : text) :
  parse_string (quote s ++ r) = Some (s, r).
Proof.
  unfold quote, parse_string. cbn [app]. 
  change (Ascii.eqb dquote dquote) with true. cbn iota.
  rewrite <- app_assoc. cbn [app].
  rewrite parse_chars_quoted. unfold chars.
  rewrite string_of_list_ascii_of_string. reflexivity.
Qed.


Lemma span_digits_app (ds r : text) :
  forallb is_digit ds = true -> delimited r ->
  span_digits (ds ++ r) = (ds, r).
Proof.
  intros Hds Hr. induction ds as [|d ds IH]; cbn [app].
  - destruct r as [|c r]; [reflexivity|].
    cbn. destruct Hr as [-> | ->]; reflexivity.
  - cbn in Hds. apply andb_prop in Hds as [Hd Hds].
    cbn [span_digits]. rewrite Hd, (IH Hds). reflexivity.
Qed.

Lemma delimited_no_fraction (r : text) :
  delimited r -> starts_fraction r = false.
Proof. destruct r as [|c r]; [reflexivity|]. intros [-> | ->]; reflexivity. Qed.

Lemma digit_char_not_minus (d : N) :
  (d < 10)%N -> Ascii.eqb (digit_char d) "-"%char = false.
Proof. intros H. small_N d; reflexivity. Qed.

Lemma digit_char_not_zero (d : N) :
  (0 < d < 10)%N -> Ascii.eqb (digit_char d) "0"%char = false.
Proof. intros H. small_N d; try reflexivity; lia. Qed.

Lemma parse_unsigned (n : N) (r : text) :
  delimited r ->
  exists d ds, digits_of_N n = d :: ds /\
    Ascii.eqb d "-"%char = false /\
    (Ascii.eqb d "0"%char && negb (Nat.eqb (List.length ds) 0) = false) /\
    span_digits (digits_of_N n ++ r) = (digits_of_N n, r).
Proof.
  intros Hr.
  pose proof (span_digits_app _ _ (digits_of_N_all n) Hr) as Hspan.
  destruct (digits_of_N_shape n) as [E | (d & ds & E & Hd)].
  - exists "0"%char, []. rewrite E in *. repeat split. exact Hspan.
  - exists (digit_char d), ds. rewrite E in *.
    rewrite digit_char_not_minus, digit_char_not_zero by lia.
    repeat split. exact Hspan.
Qed.

Lemma parse_number_digits (z : Z) (r : text) :
  delimited r -> parse_number (digits_of_Z z ++ r) = Some (z, r).
Proof.
  intros Hr. unfold digits_of_Z, parse_number.
  destruct (parse_unsigned (Z.abs_N z) r Hr) as (d & ds & E & Hm & Hz & Hspan).
  destruct (Z.ltb_spec z 0) as [Hneg | Hpos].
  - cbn [app]. change (Ascii.eqb "-"%char "-"%char) with true. cbn iota.
    rewrite Hspan, E. rewrite Hz, (delimited_no_fraction r Hr).
    rewrite <- E, digits_of_N_value. f_equal. f_equal. lia.
  - rewrite E in Hspan |- *. cbn [app] in Hspan |- *. rewrite Hm.
    rewrite Hspan, Hz, (delimited_no_fraction r Hr).
    rewrite <- E, digits_of_N_value. f_equal. f_equal. lia.
Qed.



Lemma wf_arr (l : list value) : wf (JArr l) <-> Forall wf l.
Proof.
  cbn [wf]. induction l as [|x l IH].
  - split; constructor.
  - split.
    + intros [Hx Hl]. constructor; [exact Hx|apply IH, Hl].
    + intros H. inversion H; subst. split; [assumption|apply IH; assumption].
Qed.

Lemma wf_obj (o : fields) : wf (JObj o) <-> wf_fields o.
Proof.
  unfold wf_fields, keys. cbn [wf].
  assert (E : forall o : fields,
    (fix all (o : list (string * value)) : Prop :=
       match o with [] => True | (_, x) :: o' => wf x /\ all o' end) o
    <-> Forall (fun kv => wf (snd kv)) o).
  { clear o. induction o as [|[k x] o IH].
    - split; constructor.
    - split.
      + intros [Hx Hl]. constructor; [exact Hx|apply IH, Hl].
      + intros H. inversion H; subst. split; [assumption|apply IH; assumption]. }
  rewrite E. reflexivity.
Qed.

Lemma skip_ws_idem (s : text) : skip_ws (skip_ws s) = skip_ws s.
Proof.
  induction s as [|c s IH]; [reflexivity|]. cbn [skip_ws].
  destruct (is_ws c) eqn:E; [exact IH|]. cbn [skip_ws]. rewrite E. reflexivity.
Qed.

Lemma parse_value_skip (fuel : nat) (s : text) :
  parse_value fuel (skip_ws s) = parse_value fuel s.
Proof. destruct fuel; cbn [parse_value]; [|rewrite skip_ws_idem]; reflexivity. Qed.

Lemma skip_ws_spaces (k : nat) (s : text) : skip_ws (spaces k ++ s) = skip_ws s.
Proof. induction k as [|k IH]; [reflexivity|exact IH]. Qed.

Lemma skip_ws_line (k : nat) (s : text) :
  skip_ws (newline :: spaces k ++ s) = skip_ws s.
Proof. cbn [skip_ws]. change (is_ws newline) with true. apply skip_ws_spaces. Qed.


Lemma sign_or_digit (c : ascii) :
  c = "-"%char \/ is_digit c = true ->
  opens c /\
  Ascii.eqb c "n"%char = false /\ Ascii.eqb c "t"%char = false /\
  Ascii.eqb c "f"%char = false /\ Ascii.eqb c dquote = false /\
  Ascii.eqb c "["%char = false /\ Ascii.eqb c "{"%char = false.
Proof.
  unfold opens.
  destruct c as [[] [] [] [] [] [] [] []]; cbn;
    intros [H|H]; try discriminate; repeat split.
Qed.

Lemma digits_of_Z_head (z : Z) :
  exists c t, digits_of_Z z = c :: t /\ (c = "-"%char \/ is_digit c = true).
Proof.
  unfold digits_of_Z. destruct (z <? 0)%Z.
  - eexists _, _. split; [reflexivity|left; reflexivity].
  - pose proof (digits_of_N_all (Z.abs_N z)) as H.
    destruct (digits_of_N_shape (Z.abs_N z)) as [E | (d & ds & E & Hd)];
      rewrite E in *; eexists _, _; (split; [reflexivity|right]).
    + reflexivity.
    + cbn in H. apply andb_prop in H. apply H.
Qed.

Lemma print_head (ind : nat) (v : value) :
  exists c t, print ind v = c :: t /\ opens c.
Proof.
  destruct v as [|[]|n|s|[|x l]|[|[k x] o]];
    try (eexists _, _; split; [reflexivity|repeat split]).
  destruct (digits_of_Z_head n) as (c & t & E & Hc).
  exists c, t. split; [exact E|apply sign_or_digit, Hc].
Qed.

Lemma skip_ws_opens (c : ascii) (t : text) :
  opens c -> skip_ws (c :: t) = c :: t.
Proof. intros (H & _). cbn [skip_ws]. rewrite H. reflexivity. Qed.

Lemma skip_ws_print (ind : nat) (v : value) (r : text) :
  skip_ws (print ind v ++ r) = print ind v ++ r.
Proof.
  destruct (print_head ind v) as (c & t & E & Hc). rewrite E.
  apply skip_ws_opens, Hc.
Qed.




Lemma elements_tail_nil (pr : value -> text) (ind : nat) (r : text) :
  elements_tail pr ind [] ++ r = newline :: spaces ind ++ "]"%char :: r.
Proof. cbn. rewrite <- app_assoc. reflexivity. Qed.

Lemma elements_tail_cons (pr : value -> text) (ind : nat) y ys (r : text) :
  elements_tail pr ind (y :: ys) ++ r =
  ","%char :: newline :: spaces (ind + 2) ++ pr y ++ elements_tail pr ind ys ++ r.
Proof. cbn. rewrite <- !app_assoc. reflexivity. Qed.

Lemma members_tail_nil (pr : value -> text) (ind : nat) (r : text) :
  members_tail pr ind [] ++ r = newline :: spaces ind ++ "}"%char :: r.
Proof. cbn. rewrite <- app_assoc. reflexivity. Qed.

Lemma members_tail_cons (pr : value -> text) (ind : nat) k y ys (r : text) :
  members_tail pr ind ((k, y) :: ys) ++ r =
  ","%char :: newline :: spaces (ind + 2) ++
  quote k ++ ":"%char :: " "%char :: pr y ++ members_tail pr ind ys ++ r.
Proof.
  change (members_tail pr ind ((k, y) :: ys))
    with (","%char :: newline :: spaces (ind + 2) ++
          member pr k y ++ members_tail pr ind ys).
  unfold member. cbn [app]. rewrite <- !app_assoc. cbn [app].
  reflexivity.
Qed.

Lemma skip_ws_quote (k : string) (r : text) :
  skip_ws (quote k ++ r) = quote k ++ r.
Proof. reflexivity. Qed.

Lemma parse_elements_tail (ind : nat) (xs : list value) :
  forall x fuel r,
  Forall roundtrips (x :: xs) -> elements_size (x :: xs) <= fuel ->
  parse_elements fuel
    (newline :: spaces (ind + 2) ++ print (ind + 2) x ++
     elements_tail (print (ind + 2)) ind xs ++ r)
  = Some (x :: xs, r).
Proof.
  induction xs as [|y ys IH]; intros x fuel r Hall Hfuel;
    inversion Hall as [|? ? Hx Hxs]; subst;
    (destruct fuel as [|f]; [cbn in Hfuel; lia|]);
    cbn [elements_size fold_right] in Hfuel;
    cbn [parse_elements];
    rewrite <- parse_value_skip, skip_ws_line, parse_value_skip.
  - rewrite elements_tail_nil.
    rewrite Hx; [|lia|cbn; left; reflexivity].
    rewrite skip_ws_line. reflexivity.
  - rewrite elements_tail_cons.
    rewrite Hx; [|lia|cbn; right; reflexivity].
    cbn [skip_ws].
    change (is_ws ","%char) with false. cbn iota.
    change (Ascii.eqb ","%char ","%char) with true. cbn iota.
    rewrite IH; [reflexivity|exact Hxs|].
    cbn [elements_size fold_right]. lia.
Qed.

Lemma parse_members_tail (ind : nat) (xs : fields) :
  forall k x fuel r,
  Forall (fun kv => roundtrips (snd kv)) ((k, x) :: xs) ->
  members_size ((k, x) :: xs) <= fuel ->
  parse_members fuel
    (newline :: spaces (ind + 2) ++ member (print (ind + 2)) k x ++
     members_tail (print (ind + 2)) ind xs ++ r)
  = Some ((k, x) :: xs, r).
Proof.
  induction xs as [|[k' y] ys IH]; intros k x fuel r Hall Hfuel;
    inversion Hall as [|? ? Hx Hxs]; subst; cbn [snd] in Hx;
    (destruct fuel as [|f]; [cbn in Hfuel; lia|]);
    cbn [members_size fold_right snd] in Hfuel;
    cbn [parse_members];
    rewrite skip_ws_line; unfold member; rewrite <- !app_assoc;
    rewrite skip_ws_quote, parse_string_quote; cbn [app skip_ws];
    change (is_ws ":"%char) with false; cbn iota;
    change (Ascii.eqb ":"%char ":"%char) with true; cbn iota;
    rewrite <- parse_value_skip; cbn [skip_ws];
    change (is_ws " "%char) with true; cbn iota;
    rewrite parse_value_skip.
  - rewrite members_tail_nil.
    rewrite Hx; [|lia|cbn; left; reflexivity].
    rewrite skip_ws_line. reflexivity.
  - rewrite members_tail_cons.
    rewrite Hx; [|lia|cbn; right; reflexivity].
    cbn [skip_ws].
    change (is_ws ","%char) with false. cbn iota.
    change (Ascii.eqb ","%char ","%char) with true. cbn iota.
    specialize (IH k' y f r Hxs). unfold member in IH.
    rewrite <- !app_assoc in IH. cbn [app] in IH.
    rewrite IH; [reflexivity|].
    cbn [members_size fold_right snd]. lia.
Qed.

Lemma lookup_None {A} (k : string) (o : list (string * A)) :
  lookup k o = None <-> ~ In k (keys o).
Proof.
  induction o as [|[k' v] o IH]; cbn.
  - tauto.
  - destruct (String.eqb_spec k k') as [->|Hne].
    + split; [discriminate|]. intros H. exfalso. apply H. left. reflexivity.
    + rewrite IH. split; intros H; [intros [E|E]; [congruence|tauto]|tauto].
Qed.

Lemma define_fresh {A} (k : string) (v : A) (o : list (string * A)) :
  ~ In k (keys o) -> define k v o = o ++ [(k, v)].
Proof.
  induction o as [|[k' v'] o IH]; cbn; intros H; [reflexivity|].
  destruct (String.eqb_spec k k') as [->|Hne]; [tauto|].
  rewrite IH by tauto. reflexivity.
Qed.

Lemma fold_define_fresh {A} (l : list (string * A)) :
  forall acc, NoDup (keys (acc ++ l)) ->
  fold_left (fun o kv => define (fst kv) (snd kv) o) l acc = acc ++ l.
Proof.
  induction l as [|[k v] l IH]; intros acc H; cbn [fold_left fst snd].
  - rewrite app_nil_r. reflexivity.
  - assert (E : acc ++ (k, v) :: l = (acc ++ [(k, v)]) ++ l)
      by (rewrite <- app_assoc; reflexivity).
    rewrite define_fresh.
    + rewrite IH; [symmetry; exact E|rewrite <- E; exact H].
    + unfold keys in *. rewrite map_app in H. cbn in H.
      apply NoDup_remove_2 in H. intros Hin. apply H.
      apply in_or_app. left. exact Hin.
Qed.

Lemma object_of_members_fields (o : fields) :
  NoDup (keys o) -> object_of_members o = JObj o.
Proof.
  intros H. unfold object_of_members.
  rewrite (fold_define_fresh o []); [reflexivity|exact H].
Qed.

Theorem print_parse_value (v : value) : wf v -> roundtrips v.
Proof.
  induction v as [| b | n | s | l IH | o IH] using value_induction;
    intros Hwf ind fuel r Hfuel Hr;
    (destruct fuel as [|f]; [cbn in Hfuel; lia|]).
  - reflexivity.
  - destruct b; reflexivity.
  - cbn [parse_value print].
    destruct (digits_of_Z_head n) as (c & t & E & Hc).
    pose proof (parse_number_digits n r Hr) as Hnum.
    rewrite E in *. cbn [app] in *.
    destruct (sign_or_digit c Hc) as (Hopen & Hn & Ht & Hf & Hq & Ha & Ho).
    rewrite (skip_ws_opens _ _ Hopen), Hn, Ht, Hf, Hq, Ha, Ho, Hnum.
    reflexivity.
  - cbn [parse_value print]. rewrite skip_ws_quote.
    pose proof (parse_string_quote s r) as Hs.
    unfold quote in *. cbn [app] in *.
    change (Ascii.eqb dquote "n"%char) with false.
    change (Ascii.eqb dquote "t"%char) with false.
    change (Ascii.eqb dquote "f"%char) with false.
    change (Ascii.eqb dquote dquote) with true. cbn iota.
    rewrite Hs. reflexivity.
  - destruct l as [|x xs]; [reflexivity|].
    apply wf_arr in Hwf.
    assert (Hall : Forall roundtrips (x :: xs)).
    { rewrite Forall_forall in *. intros y Hy. apply IH; [exact Hy|].
      apply Hwf, Hy. }
    cbn [print app parse_value skip_ws].
    change (is_ws "["%char) with false. cbn iota.
    change (Ascii.eqb "["%char "n"%char) with false.
    change (Ascii.eqb "["%char "t"%char) with false.
    change (Ascii.eqb "["%char "f"%char) with false.
    change (Ascii.eqb "["%char dquote) with false.
    change (Ascii.eqb "["%char "["%char) with true. cbn iota.
    rewrite <- !app_assoc.
    rewrite skip_ws_line.
    destruct (print_head (ind + 2) x) as (c & t & E & Hc).
    rewrite skip_ws_print. rewrite E at 1. cbn [app].
    destruct Hc as (_ & Hc & _). rewrite Hc.
    rewrite parse_elements_tail; [reflexivity|exact Hall|].
    cbn [size] in Hfuel. fold (elements_size (x :: xs)) in Hfuel. lia.
  - destruct o as [|[k x] xs]; [reflexivity|].
    apply wf_obj in Hwf. destruct Hwf as [Hnd Hwf].
    assert (Hall : Forall (fun kv => roundtrips (snd kv)) ((k, x) :: xs)).
    { rewrite Forall_forall in *. intros y Hy. apply IH; [exact Hy|].
      apply Hwf, Hy. }
    cbn [print app parse_value skip_ws].
    change (is_ws "{"%char) with false. cbn iota.
    change (Ascii.eqb "{"%char "n"%char) with false.
    change (Ascii.eqb "{"%char "t"%char) with false.
    change (Ascii.eqb "{"%char "f"%char) with false.
    change (Ascii.eqb "{"%char dquote) with false.
    change (Ascii.eqb "{"%char "["%char) with false.
    change (Ascii.eqb "{"%char "{"%char) with true. cbn iota.
    rewrite <- !app_assoc.
    pose proof (parse_members_tail ind xs k x f r Hall) as Hm.
    remember (newline :: spaces (ind + 2) ++
              member (print (ind + 2)) k x ++
              members_tail (print (ind + 2)) ind xs ++ r) as body eqn:Hbody.
    assert (Hsk : exists t, skip_ws body = dquote :: t).
    { subst body. rewrite skip_ws_line. unfold member.
      rewrite <- app_assoc, skip_ws_quote. eexists. reflexivity. }
    destruct Hsk as [t ->].
    change (Ascii.eqb dquote "}"%char) with false. cbn iota.
    rewrite Hm.
    + cbn [option_map fst snd]. rewrite object_of_members_fields by exact Hnd.
      reflexivity.
    + cbn [size] in Hfuel. fold (members_size ((k, x) :: xs)) in Hfuel. lia.
Qed.

Lemma elements_tail_length (pr : value -> text) (ind : nat) (l : list value) :
  Forall (fun x => size x <= List.length (pr x)) l ->
  elements_size l <= List.length (elements_tail pr ind l).
Proof.
  induction 1 as [|y ys Hy _ IH]; cbn [elements_size fold_right elements_tail].
  - lia.
  - cbn [List.length]. rewrite !length_app.
    fold (elements_size ys). lia.
Qed.

Lemma members_tail_length (pr : value -> text) (ind : nat) (o : fields) :
  Forall (fun kv => size (snd kv) <= List.length (pr (snd kv))) o ->
  members_size o <= List.length (members_tail pr ind o).
Proof.
  induction 1 as [|[k y] ys Hy _ IH]; cbn [members_size fold_right members_tail].
  - lia.
  - unfold member. cbn [List.length snd] in *.
    repeat (rewrite length_app; cbn [List.length]).
    fold (members_size ys). lia.
Qed.

Lemma size_le_length (v : value) :
  forall ind, size v <= List.length (print ind v).
Proof.
  induction v as [| b | n | s | l IH | o IH] using value_induction; intros ind.
  - cbn. lia.
  - destruct b; cbn; lia.
  - cbn [size print]. destruct (digits_of_Z_head n) as (c & t & -> & _).
    cbn. lia.
  - cbn [size print]. unfold quote. cbn. lia.
  - destruct l as [|x xs]; [cbn; lia|].
    inversion IH as [|? ? Hx Hxs]; subst.
    cbn [size print fold_right List.length]. rewrite !length_app.
    pose proof (elements_tail_length (print (ind + 2)) ind xs) as Ht.
    fold (elements_size xs). specialize (Hx (ind + 2)).
    assert (elements_size xs <=
            List.length (elements_tail (print (ind + 2)) ind xs)).
    { apply Ht. eapply Forall_impl; [|exact Hxs]. intros a Ha. apply Ha. }
    lia.
  - destruct o as [|[k x] xs]; [cbn; lia|].
    inversion IH as [|? ? Hx Hxs]; subst. cbn [snd] in Hx.
    cbn [size print fold_right List.length snd]. unfold member.
    repeat (rewrite length_app; cbn [List.length]).
    pose proof (members_tail_length (print (ind + 2)) ind xs) as Ht.
    fold (members_size xs). specialize (Hx (ind + 2)).
    assert (members_size xs <=
            List.length (members_tail (print (ind + 2)) ind xs)).
    { apply Ht. eapply Forall_impl; [|exact Hxs]. intros a Ha. apply Ha. }
    lia.
Qed.

(** [JSON.parse (JSON.stringify (v, null, 2))] is [v]. *)
Theorem parse_stringify (v : value) : wf v -> parse (stringify v) = Some v.
Proof.
  intros Hwf. unfold parse, stringify, chars.
  rewrite list_ascii_of_string_of_list_ascii.
  pose proof (print_parse_value v Hwf 0 (S (List.length (print 0 v))) []) as H.
  rewrite app_nil_r in H. rewrite H; [reflexivity| |exact I].
  pose proof (size_le_length v 0). lia.
Qed.

Lemma keys_define {A} (k : string) (v : A) (o : list (string * A)) :
  keys (define k v o) = if has_key k o then keys o else keys o ++ [k].
Proof.
  unfold has_key, keys. induction o as [|[k' v'] o IH]; cbn; [reflexivity|].
  destruct (String.eqb_spec k k') as [->|Hne]; cbn; [reflexivity|].
  rewrite IH. destruct (lookup k o); reflexivity.
Qed.

Lemma has_key_In {A} (k : string) (o : list (string * A)) :
  has_key k o = false <-> ~ In k (keys o).
Proof.
  unfold has_key. rewrite <- lookup_None.
  destruct (lookup k o); split; congruence.
Qed.

Lemma NoDup_define {A} (k : string) (v : A) (o : list (string * A)) :
  NoDup (keys o) -> NoDup (keys (define k v o)).
Proof.
  intros H. rewrite keys_define. destruct (has_key k o) eqn:E; [exact H|].
  apply has_key_In in E. apply NoDup_app; [exact H|repeat constructor; auto|].
  intros x Hx [<-|[]]. exact (E Hx).
Qed.

Lemma Forall_define {A} (P : A -> Prop) (k : string) (v : A)
  (o : list (string * A)) :
  P v -> Forall (fun kv => P (snd kv)) o ->
  Forall (fun kv => P (snd kv)) (define k v o).
Proof.
  intros Hv. induction 1 as [|[k' v'] o Hx Ho IH]; cbn.
  - repeat constructor. exact Hv.
  - destruct (String.eqb k k'); constructor; auto.
Qed.

Lemma wf_fields_define (k : string) (v : value) (o : fields) :
  wf v -> wf_fields o -> wf_fields (define k v o).
Proof.
  intros Hv [Hnd Hall]. split; [apply NoDup_define, Hnd|].
  apply Forall_define; assumption.
Qed.

Lemma wf_fields_nil : wf_fields [].
Proof. split; constructor. Qed.

Lemma wf_object_of_members (ms : list (string * value)) :
  Forall (fun kv => wf (snd kv)) ms -> wf (object_of_members ms).
Proof.
  intros H. unfold object_of_members. apply wf_obj.
  assert (G : forall acc, wf_fields acc ->
    wf_fields (fold_left (fun o kv => define (fst kv) (snd kv) o) ms acc)).
  { induction H as [|kv ms Hkv _ IH]; intros acc Hacc; cbn [fold_left].
    - exact Hacc.
    - apply IH, wf_fields_define; assumption. }
  apply G, wf_fields_nil.
Qed.

Ltac break_parse :=
  repeat match goal with
  | H : Some _ = Some _ |- _ => inversion H; subst; clear H
  | H : None = Some _ |- _ => discriminate H
  | H : option_map _ ?x = Some _ |- _ =>
      let E := fresh "E" in destruct x as [[? ?]|] eqn:E; cbn in H
  | H : option_map _ ?x = Some _ |- _ =>
      let E := fresh "E" in destruct x eqn:E; cbn in H
  | H : (if ?b then _ else _) = Some _ |- _ => destruct b
  | H : match ?x with Some _ => _ | None => _ end = Some _ |- _ =>
      let E := fresh "E" in destruct x as [[? ?]|] eqn:E
  | H : match ?x with [] => _ | _ :: _ => _ end = Some _ |- _ =>
      destruct x
  end.

Lemma parse_value_wf (fuel : nat) :
  (forall s v r, parse_value fuel s = Some (v, r) -> wf v) /\
  (forall s l r, parse_elements fuel s = Some (l, r) -> Forall wf l) /\
  (forall s o r, parse_members fuel s = Some (o, r) ->
                 Forall (fun kv => wf (snd kv)) o).
Proof.
  induction fuel as [|f (IHv & IHe & IHm)].
  - repeat split; intros; discriminate.
  - repeat split.
    + intros s v r H. cbn [parse_value] in H.
      break_parse;
        first [ apply wf_arr; eapply IHe; eassumption
              | apply wf_object_of_members; eapply IHm; eassumption
              | apply wf_obj, wf_fields_nil
              | exact I ].
    + intros s l r H. cbn [parse_elements] in H. break_parse.
      * constructor; [eapply IHv|eapply IHe]; eassumption.
      * repeat constructor. eapply IHv. eassumption.
    + intros s o r H. cbn [parse_members] in H. break_parse.
      * constructor; [eapply IHv|eapply IHm]; eassumption.
      * repeat constructor. eapply IHv. eassumption.
Qed.

(** What [JSON.parse] returns has unique keys at every depth. *)
Theorem parse_wf (t : string) (v : value) : parse t = Some v -> wf v.
Proof.
  unfold parse. intros H. break_parse.
  eapply (proj1 (parse_value_wf _)). eassumption.
Qed.

(** ** Objects: definition and assignment of properties *)


Lemma lookup_define {A} (k k' : string) (v : A) (o : list (string * A)) :
  lookup k (define k' v o) = if String.eqb k k' then Some v else lookup k o.
Proof.
  induction o as [|[k1 v1] o IH]; cbn.
  - destruct (String.eqb k k'); reflexivity.
  - destruct (String.eqb_spec k' k1) as [->|Hne]; cbn.
    + destruct (String.eqb k k1); reflexivity.
    + rewrite IH. destruct (String.eqb_spec k k1) as [->|Hne1];
        [|reflexivity].
      destruct (String.eqb_spec k1 k'); [congruence|reflexivity].
Qed.

Lemma lookup_assign {A} (k k' : string) (v : A) (o : list (string * A)) :
  lookup k (assign k' v o) =
  if String.eqb k k' && (has_key k' o || negb (String.eqb k' proto))
  then Some v else lookup k o.
Proof.
  unfold assign. destruct (has_key k' o) eqn:Hk; cbn [orb].
  - rewrite lookup_define, andb_true_r. reflexivity.
  - destruct (String.eqb k' proto); cbn [negb].
    + rewrite andb_false_r. reflexivity.
    + rewrite lookup_define, andb_true_r. reflexivity.
Qed.

Lemma has_key_assign_other {A} (k k' : string) (v : A)
  (o : list (string * A)) :
  k <> k' -> has_key k (assign k' v o) = has_key k o.
Proof.
  intros Hne. unfold has_key. rewrite lookup_assign.
  destruct (String.eqb_spec k k'); [congruence|reflexivity].
Qed.

Lemma NoDup_assign {A} (k : string) (v : A) (o : list (string * A)) :
  NoDup (keys o) -> NoDup (keys (assign k v o)).
Proof.
  intros H. unfold assign.
  destruct (has_key k o); [apply NoDup_define, H|].
  destruct (String.eqb k proto); [exact H|apply NoDup_define, H].
Qed.

Lemma Forall_assign {A} (P : A -> Prop) (k : string) (v : A)
  (o : list (string * A)) :
  P v -> Forall (fun kv => P (snd kv)) o ->
  Forall (fun kv => P (snd kv)) (assign k v o).
Proof.
  intros Hv Ho. unfold assign.
  destruct (has_key k o); [apply Forall_define; assumption|].
  destruct (String.eqb k proto); [exact Ho|apply Forall_define; assumption].
Qed.

Lemma wf_fields_assign (k : string) (v : value) (o : fields) :
  wf v -> wf_fields o -> wf_fields (assign k v o).
Proof.
  intros Hv [Hnd Hall]. split; [apply NoDup_assign, Hnd|].
  apply Forall_assign; assumption.
Qed.

Lemma proto_free_assign {A} (k : string) (v : A) (o : list (string * A)) :
  has_key proto o = false -> has_key proto (assign k v o) = false.
Proof.
  intros H. unfold has_key in *. rewrite lookup_assign.
  destruct (String.eqb_spec proto k) as [<-|Hne]; cbn [andb]; [|exact H].
  unfold has_key. rewrite String.eqb_refl.
  destruct (lookup proto o); [discriminate|reflexivity].
Qed.

Lemma assign_fresh {A} (k : string) (v : A) (o : list (string * A)) :
  has_key k o = false -> k <> proto -> assign k v o = o ++ [(k, v)].
Proof.
  intros Hk Hp. unfold assign. rewrite Hk.
  destruct (String.eqb_spec k proto); [congruence|].
  apply define_fresh, has_key_In, Hk.
Qed.

(** Folds that enter selected fields with an assignment: the loops
    [Object.entries(o).forEach(([key, value]) => ...)] of the source. *)
Section EntryFolds.
Context {A B : Type}.
Variable keep : A -> bool.
Variable f : A -> B.
Variable step : list (string * B) -> string * A -> list (string * B).
Hypothesis step_eq : forall acc kv,
  step acc kv =
  if keep (snd kv) then assign (fst kv) (f (snd kv)) acc else acc.

Lemma fold_entries_lookup (k : string) (l : list (string * A)) :
  forall acc, NoDup (keys l) ->
  lookup k (fold_left step l acc) =
  match lookup k l with
  | Some a =>
      if keep a && (has_key k acc || negb (String.eqb k proto))
      then Some (f a) else lookup k acc
  | None => lookup k acc
  end.
Proof.
  induction l as [|[k1 a1] l IH]; intros acc Hnd; cbn [fold_left lookup].
  - reflexivity.
  - inversion Hnd as [|? ? Hk1 Hnd']; subst.
    rewrite (IH _ Hnd'), step_eq. cbn [fst snd].
    destruct (String.eqb_spec k k1) as [->|Hne].
    + apply (proj2 (lookup_None k1 l)) in Hk1. rewrite Hk1.
      destruct (keep a1); cbn [andb]; [|reflexivity].
      rewrite lookup_assign, String.eqb_refl. reflexivity.
    + destruct (keep a1).
      * rewrite has_key_assign_other by exact Hne.
        rewrite lookup_assign.
        destruct (String.eqb_spec k k1); [congruence|reflexivity].
      * reflexivity.
Qed.

Lemma fold_entries_NoDup (l : list (string * A)) :
  forall acc, NoDup (keys acc) -> NoDup (keys (fold_left step l acc)).
Proof.
  induction l as [|kv l IH]; intros acc H; cbn [fold_left]; [exact H|].
  apply IH. rewrite step_eq.
  destruct (keep (snd kv)); [apply NoDup_assign, H|exact H].
Qed.

Lemma fold_entries_Forall (P : B -> Prop) (l : list (string * A)) :
  (forall a, P (f a)) ->
  forall acc, Forall (fun kv => P (snd kv)) acc ->
  Forall (fun kv => P (snd kv)) (fold_left step l acc).
Proof.
  intros Hf. induction l as [|kv l IH]; intros acc H; cbn [fold_left];
    [exact H|].
  apply IH. rewrite step_eq.
  destruct (keep (snd kv)); [apply Forall_assign; auto|exact H].
Qed.

Lemma fold_entries_proto_free (l : list (string * A)) :
  forall acc, has_key proto acc = false ->
  has_key proto (fold_left step l acc) = false.
Proof.
  induction l as [|kv l IH]; intros acc H; cbn [fold_left]; [exact H|].
  apply IH. rewrite step_eq.
  destruct (keep (snd kv)); [apply proto_free_assign, H|exact H].
Qed.

(** When every field is kept and no key is [__proto__], the fold
    rebuilds the list field by field. *)
Lemma fold_entries_all (l : list (string * A)) :
  forall acc,
  NoDup (keys acc ++ keys l) -> has_key proto l = false ->
  Forall (fun kv => keep (snd kv) = true) l ->
  fold_left step l acc = acc ++ map (fun kv => (fst kv, f (snd kv))) l.
Proof.
  induction l as [|[k a] l IH]; intros acc Hnd Hp Hall;
    cbn [fold_left map fst snd].
  - rewrite app_nil_r. reflexivity.
  - inversion Hall as [|? ? Hk Hall']; subst. cbn [snd] in Hk.
    rewrite step_eq. cbn [fst snd]. rewrite Hk.
    assert (Hkp : k <> proto /\ has_key proto l = false).
    { unfold has_key in Hp. cbn [lookup] in Hp.
      destruct (String.eqb_spec proto k) as [<-|Hne]; [discriminate|].
      split; [congruence|exact Hp]. }
    destruct Hkp as [Hkp Hp'].
    assert (Hfresh : has_key k acc = false).
    { apply has_key_In. unfold keys in *.
      cbn in Hnd. apply NoDup_remove_2 in Hnd. intros Hin. apply Hnd.
      apply in_or_app. left. exact Hin. }
    rewrite assign_fresh by assumption.
    rewrite IH; [rewrite <- app_assoc; reflexivity| |exact Hp'|exact Hall'].
    unfold keys in *. rewrite !map_app. cbn [map fst] in *.
    rewrite <- app_assoc. exact Hnd.
Qed.
End EntryFolds.

(** ** The projection, field by field *)


Lemma keep_primitive_eq (acc : fields) (kv : string * value) :
  keep_primitive acc kv =
  if is_primitive (snd kv) then assign (fst kv) ((fun v => v) (snd kv)) acc
  else acc.
Proof. reflexivity. Qed.

Lemma render_entry_eq (acc : list (string * string)) (kv : string * value) :
  render_entry acc kv =
  if is_primitive (snd kv) then assign (fst kv) (render (snd kv)) acc
  else acc.
Proof. reflexivity. Qed.

Lemma render_literal (v : value) : is_primitive v = true -> render v = literal v.
Proof. destruct v as [|[]|n|s|l|o]; try reflexivity; discriminate. Qed.

Lemma wf_filter_primitives (o : fields) :
  wf_fields o -> wf_fields (filter_primitives o).
Proof.
  intros [_ Hall]. unfold filter_primitives. split.
  - apply (fold_entries_NoDup is_primitive (fun v => v) keep_primitive keep_primitive_eq). constructor.
  - clear - Hall. 
    assert (G : forall acc, Forall (fun kv => wf (snd kv)) acc ->
      Forall (fun kv => wf (snd kv)) (fold_left keep_primitive o acc)).
    { induction Hall as [|kv o Hkv _ IH]; intros acc Hacc; cbn [fold_left];
        [exact Hacc|].
      apply IH. rewrite keep_primitive_eq.
      destruct (is_primitive (snd kv)); [apply Forall_assign; assumption|exact Hacc]. }
    apply G. constructor.
Qed.


Lemma lookup_filter_primitives (k : string) (o : fields) :
  NoDup (keys o) ->
  lookup k (filter_primitives o) =
  match lookup k o with
  | Some v => if editable k v then Some v else None
  | None => None
  end.
Proof.
  intros H. unfold filter_primitives.
  exact (fold_entries_lookup is_primitive (fun v => v) keep_primitive
           keep_primitive_eq k o [] H).
Qed.

Lemma lookup_rendered (k : string) (o : fields) :
  NoDup (keys o) ->
  lookup k (fold_left render_entry o []) =
  match lookup k o with
  | Some v => if editable k v then Some (literal v) else None
  | None => None
  end.
Proof.
  intros H.
  rewrite (fold_entries_lookup is_primitive render render_entry render_entry_eq k o [] H).
  cbn [has_key lookup orb]. unfold editable.
  destruct (lookup k o) as [v|]; [|reflexivity].
  destruct (is_primitive v) eqn:E; [|reflexivity].
  rewrite render_literal by exact E. reflexivity.
Qed.

Lemma parseContent_object (o : fields) :
  wf_fields o ->
  parseContentToKeyValues (Some (stringify (JObj o))) =
  fold_left render_entry o [].
Proof.
  intros H. unfold parseContentToKeyValues, parse_js.
  rewrite parse_stringify by (apply wf_obj, H). reflexivity.
Qed.

Lemma parseContent_other (v : value) :
  wf v -> is_plain_object v = false ->
  parseContentToKeyValues (Some (stringify v)) = [].
Proof.
  intros H Hv. unfold parseContentToKeyValues, parse_js.
  rewrite parse_stringify by exact H. destruct v; try reflexivity; discriminate.
Qed.

(** The projection of a node, field by field. *)
Lemma lookup_project (k : string) (node : value) :
  wf node ->
  lookup k (project (Some node)) =
  match node with
  | JObj o =>
      match lookup k o with
      | Some v => if editable k v then Some (literal v) else None
      | None => None
      end
  | _ => None
  end.
Proof.
  intros Hwf. unfold project.
  destruct node as [| b | n | s | l | o];
    try (cbn [node_content stringify_js option_map];
         rewrite parseContent_other by (exact Hwf || reflexivity);
         reflexivity).
  cbn [node_content]. apply wf_obj in Hwf.
  pose proof (wf_filter_primitives o Hwf) as Hf.
  rewrite parseContent_object by exact Hf.
  rewrite lookup_rendered by apply Hf.
  rewrite lookup_filter_primitives by apply Hwf.
  destruct (lookup k o) as [v|]; [|reflexivity].
  destruct (editable k v) eqn:E; [rewrite E|]; reflexivity.
Qed.

(** The same for the whole document, which [getFreshContent] serialises
    without filtering. *)
Lemma lookup_parseContent (k : string) (node : value) :
  wf node ->
  lookup k (parseContentToKeyValues (Some (stringify node))) =
  lookup k (project (Some node)).
Proof.
  intros Hwf. rewrite lookup_project by exact Hwf.
  destruct node as [| b | n | s | l | o];
    try (rewrite parseContent_other by (exact Hwf || reflexivity);
         reflexivity).
  apply wf_obj in Hwf. rewrite parseContent_object by exact Hwf.
  apply lookup_rendered, Hwf.
Qed.

(** *** Reads keep trees well formed *)


Lemma lookup_Forall {A} (P : A -> Prop) (k : string) (o : list (string * A)) (v : A) :
  Forall (fun kv => P (snd kv)) o -> lookup k o = Some v -> P v.
Proof.
  induction 1 as [|[k' v'] o Hx _ IH]; cbn; [discriminate|].
  destruct (String.eqb k k'); [intros [= <-]; exact Hx|exact IH].
Qed.

Lemma get_wf (cur : jsval) (s : segment) (next : jsval) :
  wf_js cur -> get cur s = Ok next -> wf_js next.
Proof.
  destruct cur as [[| b | n | t | l | o]|]; cbn; intros Hwf H;
    try discriminate; try (inversion H; subst; exact I).
  - destruct (index_of_segment s) as [i|]; inversion H; subst; [|exact I].
    unfold char_at. destruct (nth_error _ i); exact I.
  - destruct (index_of_segment s) as [i|]; inversion H; subst; [|exact I].
    destruct (nth_error l i) as [x|] eqn:E; [|exact I]. cbn.
    apply (proj1 (wf_arr l)) in Hwf.
    rewrite Forall_forall in Hwf. apply Hwf. eapply nth_error_In, E.
  - inversion H; subst.
    destruct (lookup (key_of_segment s) o) as [x|] eqn:E; [|exact I]. cbn.
    apply (proj1 (wf_obj o)) in Hwf. destruct Hwf as [_ Hall].
    eapply lookup_Forall; eassumption.
Qed.

Lemma walk_wf (p : path) :
  forall cur node, wf_js cur -> walk cur p = Ok node -> wf_js node.
Proof.
  induction p as [|s p IH]; intros cur node Hwf H; cbn [walk] in H.
  - inversion H; subst. exact Hwf.
  - destruct (get cur s) as [next|] eqn:E; cbn [bind] in H; [|discriminate].
    eapply IH; [|exact H]. eapply get_wf; eassumption.
Qed.

(** ** Projection: fidelity and idempotence *)


Lemma walk_nil (cur : jsval) : walk cur [] = Ok cur.
Proof. reflexivity. Qed.

Lemma no_path_nil (p : option path) : no_path p = true -> path_or_nil p = [].
Proof. destruct p as [[|s p]|]; [reflexivity|discriminate|reflexivity]. Qed.

(** The content of a render whose overlay is empty and whose document
    parses: the projection is that of the node the path leads to. *)
Lemma lookup_keyValuePairs (st : state) (d : value) (node : jsval)
  (k : string) :
  holding st = false -> parse (json st) = Some d ->
  walk (Some d) (path_or_nil (selected_path st)) = Ok node ->
  lookup k (keyValuePairs st) = lookup k (project node).
Proof.
  intros Hh Hd Hw.
  unfold keyValuePairs, originalContent, getFreshContent, fresh_from_store.
  unfold holding in Hh. rewrite Hh, Hd.
  pose proof (parse_wf _ _ Hd) as Hwf.
  destruct (no_path (selected_path st)) eqn:Hp.
  - rewrite (no_path_nil _ Hp), walk_nil in Hw. inversion Hw; subst.
    apply lookup_parseContent, Hwf.
  - rewrite Hw. reflexivity.
Qed.

(** C3.  On a render that recomputes its content (empty overlay, a store
    that parses, a path that resolves), every key the projection offers
    is a field of the node; the value of that field is neither an array
    nor an object; and the text offered is the literal text of that value:
    a string verbatim, a number, a boolean or [null] as written. *)
Theorem projection_fidelity (st : state) (d : value) (node : jsval)
  (k t : string) :
  holding st = false -> parse (json st) = Some d ->
  walk (Some d) (path_or_nil (selected_path st)) = Ok node ->
  lookup k (keyValuePairs st) = Some t ->
  exists o v, node = Some (JObj o) /\ lookup k o = Some v /\
              is_compound v = false /\ t = literal v.
Proof.
  intros Hh Hd Hw Hk.
  rewrite (lookup_keyValuePairs st d node k Hh Hd Hw) in Hk.
  assert (Hwf : wf_js node).
  { eapply walk_wf; [|exact Hw]. exact (parse_wf _ _ Hd). }
  destruct node as [n|]; [|discriminate Hk].
  rewrite lookup_project in Hk by exact Hwf.
  destruct n as [| b | n | s | l | o]; try discriminate Hk.
  destruct (lookup k o) as [v|] eqn:E; [|discriminate Hk].
  unfold editable in Hk.
  destruct (is_primitive v) eqn:Hv; [|discriminate Hk].
  destruct (String.eqb k proto); [discriminate Hk|].
  inversion Hk; subst. exists o, v.
  repeat split; [exact E|unfold is_compound; rewrite Hv; reflexivity].
Qed.

Lemma projection_fidelity_witness :
  exists o v,
    Some (JObj [("b"%string, JNum 1); ("c"%string, JArr [JNum 1; JNum 2])])
      = Some (JObj o)
    /\ lookup "b" o = Some v /\ is_compound v = false
    /\ "1"%string = literal v.
Proof.
  apply (projection_fidelity (session doc_abc [SKey "a"])
           (JObj [("a"%string,
                   JObj [("b"%string, JNum 1);
                         ("c"%string, JArr [JNum 1; JNum 2])])])
           (Some (JObj [("b"%string, JNum 1);
                        ("c"%string, JArr [JNum 1; JNum 2])]))
           "b" "1");
    reflexivity.
Defined.

Lemma parseContent_shape (content : option string) :
  NoDup (keys (parseContentToKeyValues content)) /\
  has_key proto (parseContentToKeyValues content) = false.
Proof.
  unfold parseContentToKeyValues.
  destruct (parse_js content) as [[| b | n | s | l | o]|];
    try (split; [constructor|reflexivity]).
  split.
  - apply (fold_entries_NoDup is_primitive render render_entry render_entry_eq).
    constructor.
  - apply (fold_entries_proto_free is_primitive render render_entry
             render_entry_eq). reflexivity.
Qed.

Lemma keys_as_fields (kv : list (string * string)) :
  keys (map (fun e => (fst e, JStr (snd e))) kv) = keys kv.
Proof. unfold keys. rewrite map_map. reflexivity. Qed.

Lemma has_key_as_fields (k : string) (kv : list (string * string)) :
  has_key k (map (fun e => (fst e, JStr (snd e))) kv) = has_key k kv.
Proof.
  unfold has_key. induction kv as [|[k' t] kv IH]; cbn; [reflexivity|].
  destruct (String.eqb k k'); [reflexivity|exact IH].
Qed.

Lemma project_as_node (kv : list (string * string)) :
  NoDup (keys kv) -> has_key proto kv = false ->
  project (Some (as_node kv)) = kv.
Proof.
  intros Hnd Hp. unfold project, as_node. cbn [node_content].
  set (o := map (fun e => (fst e, JStr (snd e))) kv).
  assert (Hall : Forall (fun e : string * value => is_primitive (snd e) = true) o).
  { apply Forall_forall. intros e He. apply in_map_iff in He.
    destruct He as (x & <- & _). reflexivity. }
  assert (Hndo : NoDup (keys ([] : fields) ++ keys o))
    by (cbn [keys map app]; fold (keys o); unfold o; rewrite keys_as_fields; exact Hnd).
  assert (Hpo : has_key proto o = false)
    by (unfold o; rewrite has_key_as_fields; exact Hp).
  assert (Hf : filter_primitives o = o).
  { unfold filter_primitives.
    etransitivity;
      [exact (fold_entries_all is_primitive (fun v => v) keep_primitive
                keep_primitive_eq o [] Hndo Hpo Hall)|].
    cbn [app]. rewrite <- (map_id o) at 2. apply map_ext.
    intros [a b]. reflexivity. }
  rewrite Hf.
  assert (Hwf : wf_fields o).
  { split; [exact Hndo|]. apply Forall_forall. intros e He.
    apply in_map_iff in He. destruct He as (x & <- & _). exact I. }
  rewrite parseContent_object by exact Hwf.
  etransitivity;
    [exact (fold_entries_all is_primitive render render_entry render_entry_eq
              o [] Hndo Hpo Hall)|].
  cbn [app]. unfold o. rewrite map_map. cbn [fst snd render].
  rewrite <- (map_id kv) at 2. apply map_ext. intros [a b]. reflexivity.
Qed.

(** C9.  The projection is idempotent: projecting the projection of a
    node, read as a node whose values are strings, gives the same
    mapping. *)
Theorem project_idempotent (node : jsval) :
  project (Some (as_node (project node))) = project node.
Proof.
  destruct (parseContent_shape (node_content node)) as [Hnd Hp].
  apply project_as_node; assumption.
Qed.

(** ** Merge *)


Lemma merge_entry_eq (acc : fields) (kv : string * string) :
  merge_entry acc kv =
  if (fun _ : string => true) (snd kv)
  then assign (fst kv) (reinterpret (snd kv)) acc else acc.
Proof. reflexivity. Qed.

Lemma lookup_assign_other {A} (k k' : string) (v : A)
  (o : list (string * A)) :
  k <> k' -> lookup k (assign k' v o) = lookup k o.
Proof.
  intros Hne. rewrite lookup_assign.
  destruct (String.eqb_spec k k'); [congruence|reflexivity].
Qed.

(** A key the edit buffer does not name keeps its value. *)
Lemma merge_untouched (k : string) (edits : list (string * string)) :
  forall acc, ~ In k (keys edits) ->
  lookup k (fold_left merge_entry edits acc) = lookup k acc.
Proof.
  induction edits as [|[k' t] edits IH]; intros acc Hk; cbn [fold_left].
  - reflexivity.
  - rewrite IH by (intros Hin; apply Hk; right; exact Hin).
    unfold merge_entry. cbn [fst snd]. apply lookup_assign_other.
    intros ->. apply Hk. left. reflexivity.
Qed.

Lemma lookup_In_keys {A} (k : string) (o : list (string * A)) (v : A) :
  lookup k o = Some v -> In k (keys o).
Proof.
  intros H. destruct (in_dec string_dec k (keys o)) as [Hin|Hout];
    [exact Hin|].
  apply lookup_None in Hout. congruence.
Qed.

Lemma In_keys_lookup {A} (k : string) (o : list (string * A)) :
  In k (keys o) -> exists v, lookup k o = Some v.
Proof.
  intros H. destruct (lookup k o) as [v|] eqn:E; [exists v; reflexivity|].
  apply lookup_None in E. contradiction.
Qed.

(** C4.  For a mapping node and an edit buffer whose keys are keys of the
    projection of that node, the merge leaves every array- or
    object-valued field of the node, and every field the buffer does not
    name, with the value it had. *)
Theorem merge_frame (o : fields) (edits : list (string * string))
  (k : string) (v : value) :
  wf_fields o ->
  incl (keys edits) (keys (project (Some (JObj o)))) ->
  lookup k o = Some v ->
  is_compound v = true \/ ~ In k (keys edits) ->
  lookup k (merge (Some (JObj o)) edits) = Some v.
Proof.
  intros Hwf Hincl Hk Hcase. unfold merge. cbn [spread].
  rewrite merge_untouched; [exact Hk|].
  destruct Hcase as [Hc|Hout]; [|exact Hout].
  intros Hin. apply Hincl, In_keys_lookup in Hin. destruct Hin as [t Ht].
  rewrite lookup_project in Ht by (apply wf_obj, Hwf).
  rewrite Hk in Ht. unfold editable, is_compound in *.
  destruct (is_primitive v); [discriminate Hc|discriminate Ht].
Qed.

Lemma NoDup_lookup {A} (k : string) (v : A) (o : list (string * A)) :
  NoDup (keys o) -> In (k, v) o -> lookup k o = Some v.
Proof.
  induction o as [|[k' v'] o IH]; cbn; intros Hnd Hin; [contradiction|].
  inversion Hnd as [|? ? Hk Hnd']; subst.
  destruct Hin as [[= -> ->]|Hin].
  - rewrite String.eqb_refl. reflexivity.
  - destruct (String.eqb_spec k k') as [->|Hne]; [|apply IH; assumption].
    exfalso. apply Hk. change k' with (fst (k', v)). apply in_map, Hin.
Qed.

Lemma has_key_keys {A B} (k : string) (o : list (string * A))
  (o' : list (string * B)) :
  keys o = keys o' -> has_key k o = has_key k o'.
Proof.
  intros E. destruct (has_key k o) eqn:H1, (has_key k o') eqn:H2;
    try reflexivity.
  - apply has_key_In in H2. exfalso. apply H2. rewrite <- E.
    unfold has_key in H1. destruct (lookup k o) eqn:L; [|discriminate].
    eapply lookup_In_keys, L.
  - apply has_key_In in H1. exfalso. apply H1. rewrite E.
    unfold has_key in H2. destruct (lookup k o') eqn:L; [|discriminate].
    eapply lookup_In_keys, L.
Qed.

(** The value an edit buffer gives a key it names. *)
Lemma lookup_merge (k text : string) (full : jsval)
  (edits : list (string * string)) :
  NoDup (keys edits) -> has_key proto edits = false ->
  In (k, text) edits ->
  lookup k (merge full edits) = Some (reinterpret text).
Proof.
  intros Hnd Hp Hin. unfold merge.
  etransitivity;
    [exact (fold_entries_lookup (fun _ => true) reinterpret merge_entry
              merge_entry_eq k edits (spread full) Hnd)|].
  rewrite (NoDup_lookup k text edits Hnd Hin). cbn [andb].
  destruct (String.eqb_spec k proto) as [->|Hne].
  - apply has_key_In in Hp. exfalso. apply Hp.
    change proto with (fst (proto, text)). apply in_map, Hin.
  - rewrite orb_true_r. reflexivity.
Qed.

(** ** Well-formed merges and writable paths *)



Lemma index_key_inj : Injective index_key.
Proof.
  intros a b H. unfold index_key in H.
  apply (f_equal list_ascii_of_string) in H.
  rewrite !list_ascii_of_string_of_list_ascii in H.
  apply (f_equal (N_of_digits 0)) in H.
  rewrite !digits_of_N_value in H. apply Nat2N.inj, H.
Qed.

Lemma keys_indexed (l : list value) :
  forall i, keys (indexed i l) = map index_key (seq i (List.length l)).
Proof.
  induction l as [|x l IH]; intros i; cbn; [reflexivity|].
  f_equal. apply IH.
Qed.

Lemma wf_indexed (l : list value) (i : nat) :
  Forall wf l -> wf_fields (indexed i l).
Proof.
  intros H. split.
  - rewrite keys_indexed. apply Injective_map_NoDup;
      [exact index_key_inj|apply seq_NoDup].
  - revert i. induction H as [|x l Hx _ IH]; intros i; cbn; constructor;
      [exact Hx|apply IH].
Qed.

Lemma wf_spread (v : jsval) : wf_js v -> wf_fields (spread v).
Proof.
  destruct v as [[| b | n | s | l | o]|]; cbn [spread wf_js]; intros H;
    try apply wf_fields_nil.
  - apply wf_indexed. apply Forall_forall. intros x Hx.
    apply in_map_iff in Hx. destruct Hx as (c & <- & _). exact I.
  - apply wf_indexed, wf_arr, H.
  - apply wf_obj, H.
Qed.

Lemma wf_getFullNodeObject (st : state) : wf_js (getFullNodeObject st).
Proof.
  unfold getFullNodeObject.
  destruct (parse (json st)) as [d|] eqn:Hd; [|apply wf_obj, wf_fields_nil].
  pose proof (parse_wf _ _ Hd) as Hwf.
  destruct (no_path (selected_path st)); [exact Hwf|].
  destruct (walk (Some d) (path_or_nil (selected_path st))) as [cur|] eqn:Hw;
    [|apply wf_obj, wf_fields_nil].
  eapply walk_wf; [|exact Hw]. exact Hwf.
Qed.

Lemma wf_reinterpret (text : string) : wf (reinterpret text).
Proof.
  unfold reinterpret. destruct (parse text) as [v|] eqn:E; [|exact I].
  eapply parse_wf, E.
Qed.

Lemma wf_merge (full : jsval) (edits : list (string * string)) :
  wf_js full -> wf_fields (merge full edits).
Proof.
  intros H. unfold merge. apply wf_spread in H. revert H.
  generalize (spread full).
  induction edits as [|kv edits IH]; intros acc Hacc; cbn [fold_left];
    [exact Hacc|].
  apply IH. unfold merge_entry. apply wf_fields_assign;
    [apply wf_reinterpret|exact Hacc].
Qed.

(** Whether a write succeeds does not depend on the value written. *)
Lemma put_ok_indep (cur : jsval) (s : segment) (v v' : value) :
  (exists r, put cur s v = Ok r) -> exists r', put cur s v' = Ok r'.
Proof.
  destruct cur as [[| b | n | t | l | o]|]; cbn; intros [r H];
    try discriminate; [destruct (index_of_segment s)|]; eexists; reflexivity.
Qed.

Lemma with_child_ok_indep (cur : jsval) (s : segment) (v v' : value) :
  (exists r, with_child cur s v = Ok r) -> exists r', with_child cur s v' = Ok r'.
Proof.
  destruct cur as [[| b | n | t | l | o]|]; cbn; intros [r H];
    try discriminate; [destruct (index_of_segment s)|];
    try discriminate; eexists; reflexivity.
Qed.

Lemma assign_at_ok_indep (p : path) (v v' : value) :
  forall cur, (exists r, assign_at cur p v = Ok r) ->
              exists r', assign_at cur p v' = Ok r'.
Proof.
  induction p as [|s p IH]; intros cur [r H].
  - eexists. reflexivity.
  - destruct p as [|s' p'].
    + eapply put_ok_indep. exists r. exact H.
    + remember (s' :: p') as q eqn:Hq. cbn [assign_at] in H |- *.
      rewrite Hq in H |- *. rewrite <- Hq in H |- *.
      destruct (get cur s) as [next|] eqn:Hg; cbn [bind] in H |- *;
        [|discriminate].
      destruct (assign_at next q v) as [n1|] eqn:H1; cbn [bind] in H;
        [|discriminate].
      destruct (IH next (ex_intro _ n1 H1)) as [n2 H2].
      rewrite H2. cbn [bind]. eapply with_child_ok_indep. exists r. exact H.
Qed.

Lemma assign_at_fails_indep (p : path) (cur : jsval) (v v' : value) :
  (match assign_at cur p v with Ok _ => false | Throw _ => true end) =
  (match assign_at cur p v' with Ok _ => false | Throw _ => true end).
Proof.
  destruct (assign_at cur p v) as [r|e] eqn:E1,
           (assign_at cur p v') as [r'|e'] eqn:E2; try reflexivity.
  - destruct (assign_at_ok_indep p v v' cur (ex_intro _ r E1)) as [x Hx].
    congruence.
  - destruct (assign_at_ok_indep p v' v cur (ex_intro _ r' E2)) as [x Hx].
    congruence.
Qed.

(** ** Saving *)


Lemma updateJsonAtPath_throws (j : string) (p : option path) (nv msg : string) :
  updateJsonAtPath j p nv = Throw msg -> msg = invalid_json.
Proof.
  unfold updateJsonAtPath.
  destruct (parse j), (parse nv); try (intros [= <-]; reflexivity).
  destruct (no_path p); [discriminate|].
  destruct (assign_at _ _ _); [discriminate|intros [= <-]; reflexivity].
Qed.

(** A save fails exactly when the store holds no document or the path
    cannot be written; the edit buffer has no part in it. *)
Lemma save_fails_writable (st : state) : save_fails st = negb (writable st).
Proof.
  unfold save_fails, writable, updateJsonAtPath.
  rewrite parse_stringify
    by (apply wf_obj, wf_merge, wf_getFullNodeObject).
  destruct (parse (json st)) as [d|]; [|reflexivity].
  destruct (no_path (selected_path st)); [reflexivity|].
  pose proof (assign_at_fails_indep (path_or_nil (selected_path st)) (Some d)
                (JObj (merge (getFullNodeObject st) (editedValues st))) JNull)
    as H.
  destruct (assign_at _ _ (JObj _)), (assign_at _ _ JNull);
    try reflexivity; discriminate H.
Qed.

(** C6.  An entry of the edit buffer whose text is not JSON is merged as
    that text, a string; whether the save succeeds depends on the store
    and the path alone, never on the texts edited; and editing [x] to
    [hello] in the document [{"x":5}] at the root saves the document
    [{"x":"hello"}]. *)
Theorem unparsable_edit_is_raw (st : state) (content : option string)
  (key text : string) :
  keys (editedValues st) = keys (parseContentToKeyValues content) ->
  In (key, text) (editedValues st) ->
  parse text = None ->
  lookup key (merge (getFullNodeObject st) (editedValues st))
    = Some (JStr text)
  /\ save_fails st = negb (writable st)
  /\ (let st' := handleSave (handleValueChange "x" "hello"
                               (handleEdit (session doc_x5 []))) in
      exists contents,
        trace st' = [ToastSuccess success_message;
                     SetContents contents true;
                     SetOptimisticContent (optimisticContent st')]
        /\ parse contents = Some (JObj [("x"%string, JStr "hello")])).
Proof.
  intros Hdom Hin Hparse.
  destruct (parseContent_shape content) as [Hnd Hp].
  rewrite <- Hdom in Hnd.
  rewrite <- (has_key_keys proto _ _ Hdom) in Hp.
  repeat split.
  - rewrite (lookup_merge key text _ _ Hnd Hp Hin).
    unfold reinterpret. rewrite Hparse. reflexivity.
  - apply save_fails_writable.
  - eexists. split; vm_compute; reflexivity.
Qed.

Lemma unparsable_edit_is_raw_witness :
  lookup "x"
    (merge (getFullNodeObject (handleValueChange "x" "hello"
                                 (handleEdit (session doc_x5 []))))
           [("x"%string, "hello"%string)])
  = Some (JStr "hello").
Proof.
  apply (unparsable_edit_is_raw
           (handleValueChange "x" "hello" (handleEdit (session doc_x5 [])))
           (Some doc_x5) "x" "hello");
    [reflexivity | left; reflexivity | reflexivity].
Defined.

(** C5.  A save that fails notifies the error, hands nothing to the store,
    and leaves the edit buffer and the editing flag as they were; while
    editing, the render that follows does not reset the buffer either. *)
Theorem failed_save_keeps_edits (st : state) :
  save_fails st = true ->
  trace (handleSave st)
    = ToastError invalid_json
        :: SetOptimisticContent (saved_content st) :: trace st
  /\ editedValues (handleSave st) = editedValues st
  /\ isEditing (handleSave st) = isEditing st
  /\ (isEditing st = true ->
      editedValues (effect_sync (handleSave st)) = editedValues st).
Proof.
  unfold save_fails, handleSave.
  destruct (updateJsonAtPath _ _ _) as [u|msg] eqn:E; [discriminate|].
  intros _. apply updateJsonAtPath_throws in E. subst msg.
  repeat split. intros H.
  unfold effect_sync, emit, setOptimisticContent. cbn [isEditing opened].
  rewrite H, andb_false_r. reflexivity.
Qed.

(** ** The overlay and the session *)




Lemma failed_save_keeps_edits_witness :
  editedValues (handleSave broken_session) = [("b"%string, "5"%string)]
  /\ isEditing (handleSave broken_session) = true.
Proof.
  destruct (failed_save_keeps_edits broken_session) as (_ & He & Hi & _);
    [reflexivity|].
  split; [exact He|exact Hi].
Defined.

(** C1 fails as stated: a save whose write fails, started with an empty
    overlay, leaves the overlay holding the content it computed. *)
Lemma failed_save_holds_overlay :
  ~ (forall st, save_fails st = true -> holding st = false ->
                holding (handleSave st) = false).
Proof.
  intros H. specialize (H broken_session eq_refl eq_refl). discriminate H.
Qed.

Lemma saved_content_truthy (st : state) : truthy (saved_content st) = true.
Proof.
  unfold saved_content, node_content, stringify.
  destruct (filter_primitives _) as [|[k x] o]; reflexivity.
Qed.

(** C1, as the code has it.  A save sets the overlay to the content of the
    merged node first; when the write then succeeds, its result is handed
    to the store, editing ends and success is notified.  The trace lists
    the latest call first. *)
Theorem save_sets_overlay_first (st : state) (updatedJson : string) :
  updateJsonAtPath (json st) (selected_path st)
    (stringify (JObj (merge (getFullNodeObject st) (editedValues st))))
  = Ok updatedJson ->
  trace (handleSave st)
    = [ToastSuccess success_message;
       SetContents updatedJson true;
       SetOptimisticContent (saved_content st)] ++ trace st
  /\ optimisticContent (handleSave st) = saved_content st
  /\ holding (handleSave st) = true
  /\ isEditing (handleSave st) = false.
Proof.
  intros H. unfold handleSave. rewrite H. repeat split.
  apply saved_content_truthy.
Qed.

Lemma save_sets_overlay_first_witness :
  holding (handleSave (handleValueChange "x" "hello"
                         (handleEdit (session doc_x5 [])))) = true.
Proof.
  eapply (save_sets_overlay_first
            (handleValueChange "x" "hello" (handleEdit (session doc_x5 [])))).
  vm_compute. reflexivity.
Defined.

(** C2 fails as stated: cancelling after a save leaves the overlay
    holding. *)
Lemma cancel_keeps_overlay :
  ~ (forall st, holding (handleCancel st) = false).
Proof. intros H. specialize (H resaved_session). discriminate H. Qed.

(** C2, as the code has it.  Cancelling leaves edit mode and resets the
    edit buffer to the projection of the content shown, and does not touch
    the overlay.  Closing leaves edit mode and empties the overlay; the
    buffer is rebuilt from the content when editing or the modal is next
    opened. *)
Theorem cancel_resets_close_clears (st : state) :
  isEditing (handleCancel st) = false
  /\ editedValues (handleCancel st) = keyValuePairs st
  /\ optimisticContent (handleCancel st) = optimisticContent st
  /\ isEditing (handleClose st) = false
  /\ optimisticContent (handleClose st) = None
  /\ holding (handleClose st) = false
  /\ editedValues (handleEdit (handleClose st))
     = keyValuePairs (handleClose st)
  /\ editedValues (openSession (handleClose st))
     = keyValuePairs (openSession (handleClose st)).
Proof.
  repeat split.
Qed.

(** C8.  With an empty path the write returns the new value, serialised,
    as the whole document: parsing the result gives the value back.  No
    step of the path walk is taken. *)
Theorem write_root (D V : string) (p : option path) (d v : value) :
  parse D = Some d -> parse V = Some v -> no_path p = true ->
  updateJsonAtPath D p V = Ok (stringify v)
  /\ parse (stringify v) = Some v.
Proof.
  intros HD HV Hp. unfold updateJsonAtPath. rewrite HD, HV, Hp.
  split; [reflexivity|]. apply parse_stringify. eapply parse_wf, HV.
Qed.

Lemma write_root_witness :
  updateJsonAtPath doc_x5 (Some []) "[7, true]" =
  Ok (stringify (JArr [JNum 7; JBool true])).
Proof.
  apply (write_root doc_x5 "[7, true]" (Some []) (JObj [("x"%string, JNum 5)]));
    reflexivity.
Defined.

(** ** Writing at a path *)


Lemma nth_error_set_nth (i : nat) (v : value) :
  forall l, nth_error (set_nth i v l) i = Some v.
Proof.
  induction i as [|i IH]; intros [|x l]; cbn; try reflexivity; apply IH.
Qed.

Lemma Forall_set_nth (P : value -> Prop) (i : nat) (v : value) :
  P JNull -> P v -> forall l, Forall P l -> Forall P (set_nth i v l).
Proof.
  intros Hn Hv. induction i as [|i IH]; intros l Hl.
  - destruct l as [|x l]; cbn; [repeat constructor; exact Hv|].
    inversion Hl; subst. constructor; assumption.
  - destruct l as [|x l]; cbn.
    + constructor; [exact Hn|apply IH; constructor].
    + inversion Hl; subst. constructor; [assumption|apply IH; assumption].
Qed.

Lemma put_wf (cur : jsval) (s : segment) (v r : value) :
  wf_js cur -> wf v -> put cur s v = Ok r -> wf r.
Proof.
  destruct cur as [[| b | n | t | l | o]|]; cbn [put wf_js];
    intros Hc Hv H; try discriminate.
  - destruct (index_of_segment s); inversion H; subst; [|exact Hc].
    apply wf_arr, Forall_set_nth; [exact I|exact Hv|apply wf_arr, Hc].
  - inversion H; subst. apply wf_obj, wf_fields_assign; [exact Hv|].
    apply wf_obj, Hc.
Qed.

Lemma with_child_wf (cur : jsval) (s : segment) (v r : value) :
  wf_js cur -> wf v -> with_child cur s v = Ok r -> wf r.
Proof.
  destruct cur as [[| b | n | t | l | o]|]; cbn [with_child wf_js];
    intros Hc Hv H; try discriminate.
  - destruct (index_of_segment s); inversion H; subst.
    apply wf_arr, Forall_set_nth; [exact I|exact Hv|apply wf_arr, Hc].
  - inversion H; subst. apply wf_obj, wf_fields_define; [exact Hv|].
    apply wf_obj, Hc.
Qed.

Lemma walk_from_undefined (p : path) (node : value) :
  walk None p <> Ok (Some node).
Proof. destruct p; cbn; discriminate. Qed.

Lemma get_from_string (t : string) (s : segment) (next : value) :
  get (Some (JStr t)) s = Ok (Some next) -> exists c, next = JStr c.
Proof.
  cbn [get]. destruct (index_of_segment s) as [i|]; [|discriminate].
  unfold char_at. destruct (nth_error _ i) as [c|]; [|discriminate].
  intros [= <-]. eexists. reflexivity.
Qed.

(** Indexing into a string only ever reaches strings. *)
Lemma walk_from_string (p : path) :
  forall (t : string) (o : fields),
  walk (Some (JStr t)) p <> Ok (Some (JObj o)).
Proof.
  induction p as [|s p IH]; intros t o; cbn [walk]; [discriminate|].
  destruct (get (Some (JStr t)) s) as [[next|]|] eqn:Hg; cbn [bind].
  - destruct (get_from_string t s next Hg) as [c ->]. apply IH.
  - apply walk_from_undefined.
  - discriminate.
Qed.

Lemma assign_at_cons (s s' : segment) (p : path) (cur : jsval) (v : value) :
  assign_at cur (s :: s' :: p) v =
  (next <- get cur s ;;
   next' <- assign_at next (s' :: p) v ;;
   with_child cur s next').
Proof. reflexivity. Qed.

(** The write reaches the parent the walk reaches, and changes nothing
    else on the way. *)
Lemma assign_at_parent (lastKey : segment) (v : value) (o : fields)
  (prefix : path) :
  forall cur,
  walk cur prefix = Ok (Some (JObj o)) ->
  exists cur',
    assign_at cur (prefix ++ [lastKey]) v = Ok cur'
    /\ walk (Some cur') prefix
       = Ok (Some (JObj (assign (key_of_segment lastKey) v o)))
    /\ (wf_js cur -> wf v -> wf cur').
Proof.
  induction prefix as [|s prefix IH]; intros cur Hw.
  - cbn [walk] in Hw. inversion Hw; subst. cbn [app assign_at put].
    eexists. split; [reflexivity|]. split; [reflexivity|]. intros Hc Hv.
    apply wf_obj, wf_fields_assign; [exact Hv|apply wf_obj, Hc].
  - cbn [walk] in Hw.
    destruct (get cur s) as [next|] eqn:Hg; cbn [bind] in Hw; [|discriminate].
    destruct next as [n|]; [|exfalso; eapply walk_from_undefined, Hw].
    destruct (IH (Some n) Hw) as (n' & Ha & Hw' & Hwf').
    assert (Hcons : exists s' q, prefix ++ [lastKey] = s' :: q)
      by (destruct prefix; cbn; eauto).
    destruct Hcons as (s' & q & Hq).
    cbn [app]. rewrite Hq, assign_at_cons, <- Hq, Hg. cbn [bind].
    rewrite Ha. cbn [bind].
    destruct cur as [[| b | m | t | l | oc]|];
      try (cbn [get] in Hg; discriminate).
    + destruct (get_from_string t s n Hg) as [c ->].
      exfalso. eapply walk_from_string, Hw.
    + cbn [get] in Hg.
      destruct (index_of_segment s) as [i|] eqn:Hi; [|discriminate].
      inversion Hg as [Hnth]. cbn [with_child]. rewrite Hi.
      eexists. split; [reflexivity|]. split.
      * cbn [walk get]. rewrite Hi, nth_error_set_nth. cbn [bind]. exact Hw'.
      * intros Hc Hv. apply wf_arr, Forall_set_nth;
          [exact I| |apply wf_arr, Hc].
        apply Hwf'; [|exact Hv]. cbn [wf_js] in Hc.
        apply (proj1 (wf_arr l)) in Hc. rewrite Forall_forall in Hc.
        apply Hc. eapply nth_error_In. exact Hnth.
    + cbn [get] in Hg. inversion Hg as [Hl]. cbn [with_child].
      eexists. split; [reflexivity|]. split.
      * cbn [walk get]. rewrite lookup_define, String.eqb_refl. cbn [bind].
        exact Hw'.
      * intros Hc Hv. cbn [wf_js] in Hc. apply (proj1 (wf_obj oc)) in Hc.
        apply wf_obj, wf_fields_define; [|exact Hc].
        apply Hwf'; [|exact Hv]. cbn [wf_js].
        eapply lookup_Forall; [apply Hc|]. exact Hl.
Qed.

Lemma no_path_snoc (prefix : path) (lastKey : segment) :
  no_path (Some (prefix ++ [lastKey])) = false.
Proof. destruct prefix; reflexivity. Qed.

(** For every key but an absent [__proto__] the write sets the key in
    the parent and leaves the other keys of the parent as they were. *)
Lemma write_sets_key (D V : string) (prefix : path)
  (lastKey : segment) (d v : value) (o : fields) :
  parse D = Some d -> parse V = Some v ->
  walk (Some d) prefix = Ok (Some (JObj o)) ->
  has_key (key_of_segment lastKey) o = true
  \/ key_of_segment lastKey <> proto ->
  exists d' o',
    updateJsonAtPath D (Some (prefix ++ [lastKey])) V = Ok (stringify d')
    /\ parse (stringify d') = Some d'
    /\ walk (Some d') prefix = Ok (Some (JObj o'))
    /\ lookup (key_of_segment lastKey) o' = Some v
    /\ forall k, k <> key_of_segment lastKey -> lookup k o' = lookup k o.
Proof.
  intros HD HV Hw Hk.
  destruct (assign_at_parent lastKey v o prefix (Some d) Hw)
    as (d' & Ha & Hw' & Hwf).
  exists d', (assign (key_of_segment lastKey) v o). unfold updateJsonAtPath.
  rewrite HD, HV, no_path_snoc. cbn [path_or_nil]. rewrite Ha.
  split; [reflexivity|]. split; [|split; [exact Hw'|split]].
  - apply parse_stringify, Hwf;
      [exact (parse_wf _ _ HD)|exact (parse_wf _ _ HV)].
  - rewrite lookup_assign, String.eqb_refl. cbn [andb].
    destruct Hk as [Hk|Hk].
    + rewrite Hk. reflexivity.
    + destruct (String.eqb_spec (key_of_segment lastKey) proto);
        [contradiction|].
      rewrite orb_true_r. reflexivity.
  - intros k Hne. apply lookup_assign_other, Hne.
Qed.

Lemma merge_frame_witness :
  lookup "c" (merge (Some (JObj [("b"%string, JNum 1);
                                 ("c"%string, JArr [JNum 1; JNum 2])]))
                    [("b"%string, "5"%string)])
  = Some (JArr [JNum 1; JNum 2]).
Proof.
  apply (merge_frame [("b"%string, JNum 1);
                      ("c"%string, JArr [JNum 1; JNum 2])]
                     [("b"%string, "5"%string)] "c"
                     (JArr [JNum 1; JNum 2])).
  - split.
    + repeat constructor; cbn; intuition discriminate.
    + repeat constructor.
  - intros k [<-|[]]. vm_compute. left. reflexivity.
  - reflexivity.
  - left. reflexivity.
Defined.

(** ** Scenarios *)

(** The document [{"a":{"b":1,"c":[1,2]}}] with [a] selected offers [b]
    alone, as the text [1]. *)
Example scenario_projection :
  keyValuePairs (session doc_abc [SKey "a"]) = [("b"%string, "1"%string)].
Proof. vm_compute. reflexivity. Qed.

(** Editing [b] to [5] and saving hands the store the document
    [{"a":{"b":5,"c":[1,2]}}]. *)
Example scenario_save :
  exists contents later,
    trace (handleSave (handleValueChange "b" "5"
                         (handleEdit (session doc_abc [SKey "a"]))))
    = ToastSuccess success_message :: SetContents contents true :: later
    /\ parse contents
       = Some (JObj [("a"%string,
                      JObj [("b"%string, JNum 5);
                            ("c"%string, JArr [JNum 1; JNum 2])])]).
Proof. eexists _, _. split; vm_compute; reflexivity. Qed.

(** A path through an absent key cannot be written: the save fails and
    the store is left alone. *)
Example scenario_unresolved_path :
  trace (handleSave (handleEdit (session doc_x5 [SKey "y"; SKey "z"])))
  = [ToastError invalid_json; SetOptimisticContent (Some "{}"%string)].
Proof. vm_compute. reflexivity. Qed.

(* ================================================================== *)
(** * Further properties *)
(* ================================================================== *)

(** ** Path display *)

Lemma append_assoc (a b c : string) :
  ((a ++ b) ++ c)%string = (a ++ b ++ c)%string.
Proof. induction a as [|x a IH]; cbn; [reflexivity|rewrite IH; reflexivity]. Qed.

Lemma join_brackets (x : segment) (l : path) :
  ("[" ++ join "][" (map segment_text (x :: l)) ++ "]")%string
  = brackets (x :: l).
Proof.
  revert x. induction l as [|y l IH]; intros x.
  - reflexivity.
  - change (join "][" (map segment_text (x :: y :: l)))
      with (segment_text x ++ "][" ++ join "][" (map segment_text (y :: l)))%string.
    change (brackets (x :: y :: l))
      with ("[" ++ segment_text x ++ "]" ++ brackets (y :: l))%string.
    rewrite <- (IH y). rewrite !append_assoc. reflexivity.
Qed.

Lemma jsonPathToString_brackets (p : option path) :
  jsonPathToString p = ("$" ++ brackets (path_or_nil p))%string.
Proof.
  unfold jsonPathToString. destruct p as [[|x l]|]; try reflexivity.
  cbn [no_path path_or_nil].
  change ("$[" ++ join "][" (map segment_text (x :: l)) ++ "]")%string
    with ("$" ++ ("[" ++ join "][" (map segment_text (x :: l)) ++ "]"))%string.
  rewrite join_brackets. reflexivity.
Qed.

Lemma chars_append (a b : string) : chars (a ++ b)%string = chars a ++ chars b.
Proof.
  unfold chars. induction a as [|x a IH]; cbn; [reflexivity|rewrite IH; reflexivity].
Qed.

Lemma chars_segment_text (seg : segment) :
  chars (segment_text seg) = segment_chars seg.
Proof.
  destruct seg as [k|i]; cbn [segment_text segment_chars].
  - unfold quoted. cbn [chars list_ascii_of_string]. fold (chars (k ++ String dquote "")).
    rewrite chars_append. reflexivity.
  - unfold index_key, chars. apply list_ascii_of_string_of_list_ascii.
Qed.

Lemma chars_brackets (p : path) :
  chars (brackets p)
  = flat_map (fun seg => "["%char :: segment_chars seg ++ ["]"%char]) p.
Proof.
  induction p as [|seg p IH]; [reflexivity|].
  cbn [brackets flat_map]. 
  change ("[" ++ segment_text seg ++ "]" ++ brackets p)%string
    with (String "["%char (segment_text seg ++ String "]"%char (brackets p))%string).
  cbn [chars list_ascii_of_string].
  fold (chars (segment_text seg ++ String "]"%char (brackets p))).
  rewrite chars_append, chars_segment_text. cbn [chars list_ascii_of_string].
  fold (chars (brackets p)). rewrite IH. cbn [app].
  rewrite <- app_assoc. reflexivity.
Qed.

Lemma segment_chars_spells (seg : segment) : spells seg (segment_chars seg).
Proof.
  destruct seg as [k|i]; cbn [spells segment_chars]; [reflexivity|].
  split; [apply digits_of_N_all|]. split; [apply digits_of_N_value|].
  destruct (digits_of_N_shape (N.of_nat i)) as [E|(d & ds & E & Hd)].
  - left. exact E.
  - right. exists (digit_char d), ds. split; [exact E|].
    intros Hz. pose proof (digit_char_not_zero d Hd) as Hne.
    rewrite Hz in Hne. discriminate Hne.
Qed.

(** X1.  The display of a path is the root sign followed by every segment in
    brackets, a key between double quotes and an index in decimal; the
    empty and the missing path display as the root sign alone. *)
Theorem path_display_brackets (p : option path) :
  exists pieces,
    Forall2 spells (path_or_nil p) pieces
    /\ chars (jsonPathToString p)
       = "$"%char :: flat_map (fun cs => "["%char :: cs ++ ["]"%char]) pieces.
Proof.
  exists (map segment_chars (path_or_nil p)). split.
  - induction (path_or_nil p) as [|seg l IH]; cbn [map]; constructor;
      [apply segment_chars_spells|exact IH].
  - rewrite jsonPathToString_brackets, chars_append, chars_brackets.
    cbn [chars list_ascii_of_string app]. f_equal.
    induction (path_or_nil p) as [|seg l IH]; cbn [map flat_map];
      [reflexivity|].
    rewrite IH. reflexivity.
Qed.

(** Two texts that agree, each cut at its first character outside a
    class, agree piece by piece. *)
Lemma cut_unique {A} (P : A -> bool) (l1 l2 : list A) (a b : A) (X Y : list A) :
  forallb P l1 = true -> forallb P l2 = true -> P a = false -> P b = false ->
  l1 ++ a :: X = l2 ++ b :: Y -> l1 = l2 /\ X = Y.
Proof.
  revert l2. induction l1 as [|x l1 IH]; intros [|y l2] H1 H2 Ha Hb E;
    cbn in *.
  - inversion E. split; reflexivity.
  - inversion E; subst. apply andb_prop in H2. destruct H2. congruence.
  - inversion E; subst. apply andb_prop in H1. destruct H1. congruence.
  - inversion E; subst. apply andb_prop in H1, H2.
    destruct H1, H2, (IH l2) with (5 := H3); auto. subst. split; reflexivity.
Qed.

Lemma closing_not_digit : is_digit "]"%char = false.
Proof. reflexivity. Qed.

Lemma digit_not_quote (c : ascii) : is_digit c = true -> c <> dquote.
Proof. intros H ->. discriminate H. Qed.

Lemma digits_head_digit (n : N) :
  exists c t, digits_of_N n = c :: t /\ is_digit c = true.
Proof.
  pose proof (digits_of_N_all n) as H.
  destruct (digits_of_N n) as [|c t] eqn:E.
  - destruct (digits_of_N_shape n) as [E'|(d & ds & E' & _)]; congruence.
  - cbn in H. apply andb_prop in H. exists c, t. split; [reflexivity|apply H].
Qed.

Lemma brackets_chars_inj (p : path) :
  forall q,
  forallb plain_segment p = true -> forallb plain_segment q = true ->
  flat_map (fun seg => "["%char :: segment_chars seg ++ ["]"%char]) p
  = flat_map (fun seg => "["%char :: segment_chars seg ++ ["]"%char]) q ->
  p = q.
Proof.
  induction p as [|s1 p IH]; intros [|s2 q] Hp Hq E; cbn [flat_map] in E;
    try reflexivity; try discriminate E.
  cbn [forallb] in Hp, Hq. apply andb_prop in Hp, Hq.
  destruct Hp as [H1 Hp], Hq as [H2 Hq].
  cbn [app] in E. inversion E as [E']. clear E.
  rewrite <- !app_assoc in E'. cbn [app] in E'.
  destruct s1 as [k1|i1], s2 as [k2|i2]; cbn [segment_chars plain_segment] in *.
  - cbn [app] in E'. inversion E' as [E]. clear E'.
    rewrite <- !app_assoc in E. cbn [app] in E.
    destruct (cut_unique (fun c => negb (Ascii.eqb c dquote))
                (chars k1) (chars k2) dquote dquote _ _
                H1 H2 eq_refl eq_refl E) as [Hk HX].
    inversion HX as [HX'].
    f_equal; [|apply IH; assumption].
    f_equal. rewrite <- (string_of_list_ascii_of_string k1),
               <- (string_of_list_ascii_of_string k2).
    unfold chars in Hk. rewrite Hk. reflexivity.
  - exfalso. destruct (digits_head_digit (N.of_nat i2)) as (c & t & Ed & Hc).
    rewrite Ed in E'. cbn [app] in E'. inversion E'; subst.
    discriminate Hc.
  - exfalso. destruct (digits_head_digit (N.of_nat i1)) as (c & t & Ed & Hc).
    rewrite Ed in E'. cbn [app] in E'. inversion E'; subst.
    discriminate Hc.
  - destruct (cut_unique is_digit _ _ _ _ _ _
                (digits_of_N_all _) (digits_of_N_all _)
                closing_not_digit closing_not_digit E') as [Hd HX].
    f_equal; [|apply IH; assumption].
    f_equal. apply (f_equal (N_of_digits 0)) in Hd.
    rewrite !digits_of_N_value in Hd. apply Nat2N.inj, Hd.
Qed.

(** X2.  Two paths whose keys hold no double quote and that display alike are
    the same path. *)
Theorem path_display_injective (p q : path) :
  forallb plain_segment p = true -> forallb plain_segment q = true ->
  jsonPathToString (Some p) = jsonPathToString (Some q) -> p = q.
Proof.
  intros Hp Hq E. unfold jsonPathToString in E.
  destruct p as [|x p], q as [|y q]; cbn [no_path path_or_nil] in E;
    try reflexivity; try discriminate E.
  change ("$[" ++ join "][" (map segment_text (x :: p)) ++ "]")%string
    with ("$" ++ ("[" ++ join "][" (map segment_text (x :: p)) ++ "]"))%string
    in E.
  change ("$[" ++ join "][" (map segment_text (y :: q)) ++ "]")%string
    with ("$" ++ ("[" ++ join "][" (map segment_text (y :: q)) ++ "]"))%string
    in E.
  rewrite !join_brackets in E.
  apply (f_equal chars) in E. rewrite !chars_append in E.
  apply app_inv_head in E. rewrite !chars_brackets in E.
  apply brackets_chars_inj; assumption.
Qed.

Lemma path_display_injective_witness :
  [SKey "customer"; SIdx 0] = [SKey "customer"; SIdx 0].
Proof.
  apply (path_display_injective [SKey "customer"; SIdx 0]
                                [SKey "customer"; SIdx 0]);
    reflexivity.
Defined.

(** X3.  Keys are displayed as they are, without escaping: two different
    paths can display alike. *)
Theorem path_display_ambiguous :
  exists p q : path, p <> q /\ jsonPathToString (Some p) = jsonPathToString (Some q).
Proof.
  exists [SKey "a"; SKey "b"],
         [SKey ("a" ++ String dquote "][" ++ String dquote "b")%string].
  split; [discriminate|reflexivity].
Qed.

(** ** Reads and writes of one property *)

Lemma walk_app (a b : path) :
  forall cur, walk cur (a ++ b) = (x <- walk cur a ;; walk x b).
Proof.
  induction a as [|s a IH]; intros cur; cbn [app walk bind]; [reflexivity|].
  destruct (get cur s) as [next|e]; cbn [bind]; [apply IH|reflexivity].
Qed.

Lemma index_of_index_key (i : nat) : index_of_key (index_key i) = Some i.
Proof.
  unfold index_of_key, index_key.
  rewrite list_ascii_of_string_of_list_ascii.
  destruct (digits_of_N (N.of_nat i)) as [|c t] eqn:E.
  - destruct (digits_of_N_shape (N.of_nat i)) as [E'|(d & ds & E' & _)];
      congruence.
  - rewrite <- E, digits_of_N_all, digits_of_N_value, String.eqb_refl,
      Nat2N.id. reflexivity.
Qed.

Lemma index_of_key_sound (k : string) (i : nat) :
  index_of_key k = Some i -> k = index_key i.
Proof.
  unfold index_of_key, index_key.
  destruct (list_ascii_of_string k) as [|c t]; [discriminate|].
  destruct (forallb is_digit (c :: t)); [|discriminate].
  destruct (String.eqb_spec
              (string_of_list_ascii (digits_of_N (N_of_digits 0 (c :: t)))) k)
    as [E|]; [|discriminate].
  intros [= <-]. rewrite N2Nat.id. symmetry. exact E.
Qed.

(** Whether a segment is an index depends on the property it names
    only. *)
Lemma index_of_segment_key (s : segment) :
  index_of_segment s = index_of_key (key_of_segment s).
Proof.
  destruct s as [k|i]; cbn; [reflexivity|].
  symmetry. apply index_of_index_key.
Qed.

Lemma index_of_segment_inj (s s' : segment) (i : nat) :
  index_of_segment s = Some i -> index_of_segment s' = Some i ->
  key_of_segment s = key_of_segment s'.
Proof.
  rewrite !index_of_segment_key. intros H H'.
  apply index_of_key_sound in H, H'. congruence.
Qed.

Lemma nth_error_set_nth_other (i j : nat) (v x : value) :
  forall l, i <> j -> nth_error l j = Some x ->
  nth_error (set_nth i v l) j = Some x.
Proof.
  revert j. induction i as [|i IH]; intros [|j] [|y l] Hne H; cbn in *;
    try discriminate; try congruence.
  apply IH; [congruence|exact H].
Qed.

Lemma get_with_child_same (cur : jsval) (s : segment) (n cur' : value) :
  with_child cur s n = Ok cur' -> get (Some cur') s = Ok (Some n).
Proof.
  destruct cur as [[| b | m | t | l | o]|]; cbn [with_child]; try discriminate.
  - destruct (index_of_segment s) as [i|] eqn:Hi; [|discriminate].
    intros [= <-]. cbn [get]. rewrite Hi, nth_error_set_nth. reflexivity.
  - intros [= <-]. cbn [get]. rewrite lookup_define, String.eqb_refl.
    reflexivity.
Qed.

Lemma get_with_child_other (cur : jsval) (s s' : segment) (n cur' x : value) :
  with_child cur s n = Ok cur' ->
  key_of_segment s' <> key_of_segment s ->
  get cur s' = Ok (Some x) -> get (Some cur') s' = Ok (Some x).
Proof.
  destruct cur as [[| b | m | t | l | o]|]; cbn [with_child]; try discriminate.
  - destruct (index_of_segment s) as [i|] eqn:Hi; [|discriminate].
    intros [= <-] Hne. cbn [get].
    destruct (index_of_segment s') as [j|] eqn:Hj; [|discriminate].
    intros [= H]. rewrite nth_error_set_nth_other with (x := x);
      [reflexivity| |exact H].
    intros ->. apply Hne. eapply index_of_segment_inj; eassumption.
  - intros [= <-] Hne. cbn [get]. rewrite lookup_define.
    destruct (String.eqb_spec (key_of_segment s') (key_of_segment s));
      [contradiction|tauto].
Qed.

Lemma get_put_other (cur : jsval) (s s' : segment) (v cur' x : value) :
  put cur s v = Ok cur' ->
  key_of_segment s' <> key_of_segment s ->
  get cur s' = Ok (Some x) -> get (Some cur') s' = Ok (Some x).
Proof.
  destruct cur as [[| b | m | t | l | o]|]; cbn [put]; try discriminate.
  - destruct (index_of_segment s) as [i|] eqn:Hi; intros [= <-] Hne;
      cbn [get]; [|tauto].
    destruct (index_of_segment s') as [j|] eqn:Hj; [|discriminate].
    intros [= H]. rewrite nth_error_set_nth_other with (x := x);
      [reflexivity| |exact H].
    intros ->. apply Hne. eapply index_of_segment_inj; eassumption.
  - intros [= <-] Hne. cbn [get]. rewrite lookup_assign_other by exact Hne.
    tauto.
Qed.

(** Replacing a property that is there: the new value is read back. *)
Lemma get_put_same (cur : jsval) (s : segment) (v cur' old : value) :
  put cur s v = Ok cur' -> get cur s = Ok (Some old) ->
  get (Some cur') s = Ok (Some v).
Proof.
  destruct cur as [[| b | m | t | l | o]|]; cbn [put]; try discriminate.
  - cbn [get]. destruct (index_of_segment s) as [i|] eqn:Hi;
      [|intros _ H; discriminate H].
    intros [= <-] _. cbn [get]. try rewrite Hi. rewrite nth_error_set_nth.
    reflexivity.
  - cbn [get]. intros [= <-] [= H]. cbn [get].
    rewrite lookup_assign, String.eqb_refl.
    unfold has_key. rewrite H. reflexivity.
Qed.

Lemma walk_from_string_gen (p : path) :
  forall (t : string) (x : value),
  walk (Some (JStr t)) p = Ok (Some x) -> exists c, x = JStr c.
Proof.
  induction p as [|s p IH]; intros t x; cbn [walk].
  - intros [= <-]. eexists. reflexivity.
  - destruct (get (Some (JStr t)) s) as [[next|]|] eqn:Hg; cbn [bind].
    + destruct (get_from_string t s next Hg) as [c ->]. apply IH.
    + intros H. exfalso. eapply walk_from_undefined, H.
    + discriminate.
Qed.

Lemma put_ok_compound (cur : jsval) (s : segment) (v : value) :
  (exists r, put cur s v = Ok r) <->
  (exists parent, cur = Some parent /\ is_compound parent = true).
Proof.
  split.
  - intros [r H]. destruct cur as [[| b | m | t | l | o]|]; cbn in H;
      try discriminate; eexists; split; reflexivity.
  - intros (parent & -> & H). destruct parent; try discriminate H; cbn.
    + destruct (index_of_segment s); eexists; reflexivity.
    + eexists. reflexivity.
Qed.

(** The write goes through the parent the walk reaches. *)
Lemma assign_at_via_parent (lastKey : segment) (v : value) (prefix : path) :
  forall cur parent parent',
  walk cur prefix = Ok parent -> put parent lastKey v = Ok parent' ->
  exists cur',
    assign_at cur (prefix ++ [lastKey]) v = Ok cur'
    /\ walk (Some cur') prefix = Ok (Some parent').
Proof.
  induction prefix as [|s prefix IH]; intros cur parent parent' Hw Hp.
  - cbn [walk] in Hw. inversion Hw; subst. exists parent'.
    split; [exact Hp|reflexivity].
  - cbn [walk] in Hw.
    destruct (get cur s) as [next|] eqn:Hg; cbn [bind] in Hw; [|discriminate].
    destruct (IH next parent parent' Hw Hp) as (n' & Ha & Hw').
    assert (Hcons : exists s' q, prefix ++ [lastKey] = s' :: q)
      by (destruct prefix; cbn; eauto).
    destruct Hcons as (s' & q & Hq).
    cbn [app]. rewrite Hq, assign_at_cons, <- Hq, Hg. cbn [bind].
    rewrite Ha. cbn [bind].
    assert (Hpar : exists x, parent = Some x /\ is_compound x = true)
      by (apply (put_ok_compound parent lastKey v); eauto).
    destruct Hpar as (x & -> & Hx).
    destruct next as [n|]; [|exfalso; eapply walk_from_undefined, Hw].
    destruct cur as [[| b | m | t | l | oc]|];
      try (cbn [get] in Hg; discriminate).
    + destruct (get_from_string t s n Hg) as [c ->].
      destruct (walk_from_string_gen _ _ _ Hw) as [c' ->]. discriminate Hx.
    + cbn [get] in Hg.
      destruct (index_of_segment s) as [i|] eqn:Hi; [|discriminate].
      cbn [with_child]. rewrite Hi. eexists. split; [reflexivity|].
      cbn [walk get]. rewrite Hi, nth_error_set_nth. cbn [bind]. exact Hw'.
    + cbn [with_child]. eexists. split; [reflexivity|].
      cbn [walk get]. rewrite lookup_define, String.eqb_refl. cbn [bind].
      exact Hw'.
Qed.


(** ** Writes along a path *)

Lemma assign_at_wf (p : path) (v : value) :
  forall cur cur', wf_js cur -> wf v -> assign_at cur p v = Ok cur' -> wf cur'.
Proof.
  induction p as [|s p IH]; intros cur cur' Hc Hv H.
  - inversion H; subst. exact Hv.
  - destruct p as [|s' q].
    + eapply put_wf; eassumption.
    + rewrite assign_at_cons in H.
      destruct (get cur s) as [next|] eqn:Hg; cbn [bind] in H; [|discriminate].
      destruct (assign_at next (s' :: q) v) as [n'|] eqn:Ha; cbn [bind] in H;
        [|discriminate].
      eapply with_child_wf; [exact Hc| |exact H].
      eapply IH; [|exact Hv|exact Ha]. eapply get_wf; eassumption.
Qed.

(** What a successful write returns: the serialisation of the document
    the assignment leaves, which parses back to it. *)
Lemma updateJsonAtPath_ok (D V r : string) (p : option path) :
  updateJsonAtPath D p V = Ok r ->
  exists d v d',
    parse D = Some d /\ parse V = Some v
    /\ (if no_path p then d' = v
        else assign_at (Some d) (path_or_nil p) v = Ok d')
    /\ r = stringify d' /\ wf d'.
Proof.
  unfold updateJsonAtPath.
  destruct (parse D) as [d|] eqn:HD; [|discriminate].
  destruct (parse V) as [v|] eqn:HV; [|discriminate].
  pose proof (parse_wf _ _ HD) as Hd. pose proof (parse_wf _ _ HV) as Hv.
  destruct (no_path p) eqn:Hp.
  - intros [= <-]. exists d, v, v. repeat split; assumption.
  - destruct (assign_at (Some d) (path_or_nil p) v) as [d'|] eqn:Ha;
      [|discriminate].
    intros [= <-]. exists d, v, d'. repeat split; try assumption.
    eapply assign_at_wf; [| |exact Ha]; assumption.
Qed.

Lemma walk_Some_inv (p : path) (cur : jsval) (x : value) :
  walk cur p = Ok (Some x) -> exists c, cur = Some c.
Proof.
  destruct cur as [c|]; [eauto|]. intros H. exfalso.
  eapply walk_from_undefined, H.
Qed.

Lemma assign_at_read_back (p : path) (v : value) :
  forall cur cur' old,
  p <> [] -> walk cur p = Ok (Some old) -> assign_at cur p v = Ok cur' ->
  walk (Some cur') p = Ok (Some v).
Proof.
  induction p as [|s p IH]; intros cur cur' old Hne Hw H; [congruence|].
  destruct p as [|s' q].
  - cbn [walk] in Hw |- *. cbn [assign_at] in H.
    destruct (get cur s) as [next|] eqn:Hg; cbn [bind] in Hw; [|discriminate].
    inversion Hw; subst.
    rewrite (get_put_same _ _ _ _ _ H Hg). reflexivity.
  - rewrite assign_at_cons in H. remember (s' :: q) as p' eqn:Hp'.
    cbn [walk] in Hw |- *.
    destruct (get cur s) as [next|] eqn:Hg; cbn [bind] in Hw, H; [|discriminate].
    destruct (assign_at next p' v) as [n'|] eqn:Ha; cbn [bind] in H;
      [|discriminate].
    rewrite (get_with_child_same _ _ _ _ H). cbn [bind].
    eapply IH; [subst; discriminate|exact Hw|exact Ha].
Qed.

Lemma assign_at_frame (v : value) (s1 s2 : segment) (r1 r2 : path) (x : value)
  (common : path) :
  forall cur cur',
  key_of_segment s1 <> key_of_segment s2 ->
  assign_at cur (common ++ s2 :: r2) v = Ok cur' ->
  walk cur (common ++ s1 :: r1) = Ok (Some x) ->
  walk (Some cur') (common ++ s1 :: r1) = Ok (Some x).
Proof.
  induction common as [|s c IH]; intros cur cur' Hne H Hw.
  - cbn [app] in *. cbn [walk] in Hw |- *.
    destruct (get cur s1) as [y|] eqn:Hg; cbn [bind] in Hw; [|discriminate].
    destruct (walk_Some_inv _ _ _ Hw) as [y' ->].
    destruct r2 as [|s' q].
    + rewrite (get_put_other _ _ _ _ _ _ H Hne Hg). exact Hw.
    + rewrite assign_at_cons in H.
      destruct (get cur s2) as [next|]; cbn [bind] in H; [|discriminate].
      destruct (assign_at next (s' :: q) v) as [n'|]; cbn [bind] in H;
        [|discriminate].
      rewrite (get_with_child_other _ _ _ _ _ _ H Hne Hg). exact Hw.
  - assert (Hcons : exists s' q, c ++ s2 :: r2 = s' :: q)
      by (destruct c; cbn; eauto).
    destruct Hcons as (s' & q & Hq).
    cbn [app] in *. rewrite Hq, assign_at_cons, <- Hq in H.
    cbn [walk] in Hw |- *.
    destruct (get cur s) as [next|] eqn:Hg; cbn [bind] in Hw, H; [|discriminate].
    destruct (assign_at next (c ++ s2 :: r2) v) as [n'|] eqn:Ha;
      cbn [bind] in H; [|discriminate].
    rewrite (get_with_child_same _ _ _ _ H). cbn [bind].
    eapply IH; eassumption.
Qed.

Lemma set_nth_padded (i : nat) (v : value) :
  forall l, set_nth i v l = padded i v l.
Proof.
  unfold padded. induction i as [|i IH]; intros [|x l]; cbn; try reflexivity.
  - rewrite IH. cbn. rewrite Nat.sub_0_r. destruct i; reflexivity.
  - rewrite IH. reflexivity.
Qed.

(** ** Writing twice, writing back *)

Lemma define_define {A} (k : string) (a b : A) (o : list (string * A)) :
  define k b (define k a o) = define k b o.
Proof.
  induction o as [|[k' v'] o IH]; cbn.
  - rewrite String.eqb_refl. reflexivity.
  - destruct (String.eqb k k') eqn:E; cbn.
    + rewrite String.eqb_refl. reflexivity.
    + rewrite E, IH. reflexivity.
Qed.

Lemma has_key_define {A} (k : string) (a : A) (o : list (string * A)) :
  has_key k (define k a o) = true.
Proof. unfold has_key. rewrite lookup_define, String.eqb_refl. reflexivity. Qed.

Lemma assign_assign {A} (k : string) (a b : A) (o : list (string * A)) :
  assign k b (assign k a o) = assign k b o.
Proof.
  unfold assign. destruct (has_key k o) eqn:Hk.
  - rewrite has_key_define. apply define_define.
  - destruct (String.eqb k proto) eqn:Hp.
    + rewrite Hk. reflexivity.
    + rewrite has_key_define. apply define_define.
Qed.

Lemma set_nth_set_nth (i : nat) (a b : value) :
  forall l, set_nth i b (set_nth i a l) = set_nth i b l.
Proof.
  induction i as [|i IH]; intros [|x l]; cbn; try reflexivity;
    rewrite IH; reflexivity.
Qed.

Lemma put_put (cur : jsval) (s : segment) (a b c1 : value) :
  put cur s a = Ok c1 -> put (Some c1) s b = put cur s b.
Proof.
  destruct cur as [[| x | m | t | l | o]|]; cbn [put]; try discriminate.
  - destruct (index_of_segment s) as [i|] eqn:Hi; intros [= <-]; cbn [put];
      try rewrite Hi; try rewrite set_nth_set_nth; reflexivity.
  - intros [= <-]. cbn [put]. rewrite assign_assign. reflexivity.
Qed.

Lemma with_child_with_child (cur : jsval) (s : segment) (a b c1 : value) :
  with_child cur s a = Ok c1 -> with_child (Some c1) s b = with_child cur s b.
Proof.
  destruct cur as [[| x | m | t | l | o]|]; cbn [with_child]; try discriminate.
  - destruct (index_of_segment s) as [i|] eqn:Hi; [|discriminate].
    intros [= <-]. cbn [with_child]. try rewrite Hi.
    rewrite set_nth_set_nth. reflexivity.
  - intros [= <-]. cbn [with_child]. rewrite define_define. reflexivity.
Qed.

Lemma assign_at_twice (p : path) (a b : value) :
  forall cur c1,
  p <> [] -> assign_at cur p a = Ok c1 ->
  assign_at (Some c1) p b = assign_at cur p b.
Proof.
  induction p as [|s p IH]; intros cur c1 Hne H; [congruence|].
  destruct p as [|s' q].
  - cbn [assign_at] in *. eapply put_put, H.
  - rewrite !assign_at_cons in *. remember (s' :: q) as p' eqn:Hp'.
    destruct (get cur s) as [next|] eqn:Hg; cbn [bind] in H |- *;
      [|discriminate].
    destruct (assign_at next p' a) as [n1|] eqn:Ha; cbn [bind] in H;
      [|discriminate].
    rewrite (get_with_child_same _ _ _ _ H). cbn [bind].
    rewrite (IH next n1) by (subst; discriminate || exact Ha).
    destruct (assign_at next p' b) as [n2|]; cbn [bind]; [|reflexivity].
    eapply with_child_with_child, H.
Qed.

Lemma define_same {A} (k : string) (v : A) (o : list (string * A)) :
  lookup k o = Some v -> define k v o = o.
Proof.
  induction o as [|[k' v'] o IH]; cbn; [discriminate|].
  destruct (String.eqb_spec k k') as [->|Hne].
  - intros [= ->]. reflexivity.
  - intros H. rewrite IH by exact H. reflexivity.
Qed.

Lemma set_nth_same (i : nat) (v : value) :
  forall l, nth_error l i = Some v -> set_nth i v l = l.
Proof.
  induction i as [|i IH]; intros [|x l]; cbn; try discriminate.
  - intros [= ->]. reflexivity.
  - intros H. rewrite IH by exact H. reflexivity.
Qed.

Lemma put_same (cur : jsval) (s : segment) (v c' : value) :
  get cur s = Ok (Some v) -> put cur s v = Ok c' -> cur = Some c'.
Proof.
  destruct cur as [[| x | m | t | l | o]|]; cbn [put]; try discriminate.
  - cbn [get]. destruct (index_of_segment s) as [i|]; [|discriminate].
    intros [= H] [= <-]. rewrite set_nth_same by exact H. reflexivity.
  - cbn [get]. intros [= H] [= <-]. unfold assign, has_key. rewrite H.
    rewrite define_same by exact H. reflexivity.
Qed.

Lemma with_child_same (cur : jsval) (s : segment) (v c' : value) :
  get cur s = Ok (Some v) -> with_child cur s v = Ok c' -> cur = Some c'.
Proof.
  destruct cur as [[| x | m | t | l | o]|]; cbn [with_child]; try discriminate.
  - cbn [get]. destruct (index_of_segment s) as [i|]; [|discriminate].
    intros [= H] [= <-]. rewrite set_nth_same by exact H. reflexivity.
  - cbn [get]. intros [= H] [= <-].
    rewrite define_same by exact H. reflexivity.
Qed.

Lemma assign_at_same (p : path) (n : value) :
  forall cur c',
  p <> [] -> walk cur p = Ok (Some n) -> assign_at cur p n = Ok c' ->
  cur = Some c'.
Proof.
  induction p as [|s p IH]; intros cur c' Hne Hw H; [congruence|].
  destruct p as [|s' q].
  - cbn [walk] in Hw. cbn [assign_at] in H.
    destruct (get cur s) as [next|] eqn:Hg; cbn [bind] in Hw; [|discriminate].
    inversion Hw; subst. eapply put_same; eassumption.
  - rewrite assign_at_cons in H. remember (s' :: q) as p' eqn:Hp'.
    cbn [walk] in Hw.
    destruct (get cur s) as [next|] eqn:Hg; cbn [bind] in Hw, H; [|discriminate].
    destruct (assign_at next p' n) as [n'|] eqn:Ha; cbn [bind] in H;
      [|discriminate].
    assert (next = Some n') as -> by (eapply IH; [subst; discriminate|eassumption..]).
    eapply with_child_same; eassumption.
Qed.

Lemma no_path_false (p : option path) :
  no_path p = false -> path_or_nil p <> [] /\ p = Some (path_or_nil p).
Proof. destruct p as [[|s l]|]; try discriminate. split; [discriminate|reflexivity]. Qed.

(** ** What [updateJsonAtPath] returns *)

Lemma updateJsonAtPath_assign (D V r : string) (p : path) (d v : value) :
  p <> [] -> parse D = Some d -> parse V = Some v ->
  updateJsonAtPath D (Some p) V = Ok r ->
  exists d', assign_at (Some d) p v = Ok d' /\ r = stringify d'
             /\ parse r = Some d'.
Proof.
  intros Hne HD HV H.
  destruct (updateJsonAtPath_ok _ _ _ _ H) as (d0 & v0 & d' & HD' & HV' & Ha & -> & Hwf).
  rewrite HD in HD'. rewrite HV in HV'. inversion HD'; inversion HV'; subst.
  destruct p as [|s q]; [congruence|]. cbn [no_path path_or_nil] in Ha.
  exists d'. repeat split; [exact Ha|apply parse_stringify, Hwf].
Qed.

(** X5.  After a successful write at a path that led to a value, the path
    leads to the new value in the document returned. *)
Theorem write_read_back (D V r : string) (p : path) (d v old : value) :
  parse D = Some d -> parse V = Some v -> p <> [] ->
  walk (Some d) p = Ok (Some old) ->
  updateJsonAtPath D (Some p) V = Ok r ->
  exists d', parse r = Some d' /\ walk (Some d') p = Ok (Some v).
Proof.
  intros HD HV Hne Hw H.
  destruct (updateJsonAtPath_assign _ _ _ _ _ _ Hne HD HV H) as (d' & Ha & _ & Hr).
  exists d'. split; [exact Hr|].
  eapply assign_at_read_back; eassumption.
Qed.

Lemma write_read_back_witness :
  exists d', parse (stringify (JObj [("x"%string, JArr [JNum 1; JBool true])]))
             = Some d'
             /\ walk (Some d') [SKey "x"; SIdx 1] = Ok (Some (JBool true)).
Proof.
  apply (write_read_back
           (stringify (JObj [("x"%string, JArr [JNum 1; JNum 2])])) "true"
           (stringify (JObj [("x"%string, JArr [JNum 1; JBool true])]))
           [SKey "x"; SIdx 1]
           (JObj [("x"%string, JArr [JNum 1; JNum 2])]) (JBool true) (JNum 2));
    try reflexivity. discriminate.
Defined.

(** X6.  A successful write whose last key is not [length] leaves what
    any path that branches off the written one led to. *)
Theorem write_frame (D V r : string) (common r1 r2 : path) (s1 s2 : segment)
  (d x : value) :
  parse D = Some d ->
  key_of_segment s1 <> key_of_segment s2 ->
  last (map key_of_segment (s2 :: r2)) ""%string <> "length"%string ->
  walk (Some d) (common ++ s1 :: r1) = Ok (Some x) ->
  updateJsonAtPath D (Some (common ++ s2 :: r2)) V = Ok r ->
  exists d', parse r = Some d'
             /\ walk (Some d') (common ++ s1 :: r1) = Ok (Some x).
Proof.
  intros HD Hne _ Hw H.
  destruct (updateJsonAtPath_ok _ _ _ _ H)
    as (d0 & v & d' & HD' & HV & Ha & -> & Hwf).
  rewrite HD in HD'. inversion HD'; subst d0.
  assert (Hp : no_path (Some (common ++ s2 :: r2)) = false)
    by (destruct common; reflexivity).
  rewrite Hp in Ha. cbn [path_or_nil] in Ha.
  exists d'. split; [apply parse_stringify, Hwf|].
  eapply assign_at_frame; eassumption.
Qed.

Lemma write_frame_witness :
  exists d',
    parse (stringify (JObj [("a"%string,
                             JObj [("b"%string, JNum 5);
                                   ("c"%string, JArr [JNum 1; JNum 2])])]))
    = Some d'
    /\ walk (Some d') ([SKey "a"] ++ SKey "c" :: [SIdx 1]) = Ok (Some (JNum 2)).
Proof.
  apply (write_frame doc_abc "5" _ [SKey "a"] [SIdx 1] [] (SKey "c") (SKey "b")
           (JObj [("a"%string,
                   JObj [("b"%string, JNum 1);
                         ("c"%string, JArr [JNum 1; JNum 2])])]));
    try reflexivity; discriminate.
Defined.

(** X7.  Writing an index [i] of a sequence succeeds: the element there is
    replaced, or the sequence grows to reach [i], with [null] in the
    places between.  An index is a number below 4294967295. *)
Theorem write_pads_sequence (D V : string) (prefix : path) (i : nat)
  (d v : value) (l : list value) :
  parse D = Some d -> parse V = Some v ->
  walk (Some d) prefix = Ok (Some (JArr l)) ->
  (N.of_nat i < 4294967295)%N ->
  exists d',
    updateJsonAtPath D (Some (prefix ++ [SIdx i])) V = Ok (stringify d')
    /\ parse (stringify d') = Some d'
    /\ walk (Some d') prefix = Ok (Some (JArr (padded i v l))).
Proof.
  intros HD HV Hw _.
  destruct (assign_at_via_parent (SIdx i) v prefix (Some d) _
              (JArr (set_nth i v l)) Hw eq_refl) as (d' & Ha & Hw').
  exists d'. unfold updateJsonAtPath.
  rewrite HD, HV, no_path_snoc. cbn [path_or_nil]. rewrite Ha.
  split; [reflexivity|]. split.
  - apply parse_stringify. eapply assign_at_wf; [| |exact Ha].
    + exact (parse_wf _ _ HD).
    + exact (parse_wf _ _ HV).
  - rewrite Hw', set_nth_padded. reflexivity.
Qed.

Lemma write_pads_sequence_witness :
  exists d',
    updateJsonAtPath (stringify (JArr [JNum 1])) (Some ([] ++ [SIdx 3])) "7"
    = Ok (stringify d')
    /\ parse (stringify d') = Some d'
    /\ walk (Some d') [] = Ok (Some (JArr [JNum 1; JNull; JNull; JNum 7])).
Proof.
  apply (write_pads_sequence (stringify (JArr [JNum 1])) "7" [] 3
           (JArr [JNum 1]) (JNum 7) [JNum 1]);
    reflexivity.
Defined.

(** X8.  What a successful write returns is JSON, in the form
    [JSON.stringify] gives it: it parses, and serialising the result of
    the parse gives the same text. *)
Theorem write_output_parses (D V r : string) (p : option path) :
  updateJsonAtPath D p V = Ok r ->
  exists d', parse r = Some d' /\ stringify d' = r.
Proof.
  intros H. destruct (updateJsonAtPath_ok _ _ _ _ H)
    as (d & v & d' & _ & _ & _ & -> & Hwf).
  exists d'. split; [apply parse_stringify, Hwf|reflexivity].
Qed.

Lemma write_output_parses_witness :
  exists d', parse (stringify (JObj [("x"%string, JNum 5); ("y"%string, JNull)]))
             = Some d'
             /\ stringify d'
                = stringify (JObj [("x"%string, JNum 5); ("y"%string, JNull)]).
Proof.
  apply (write_output_parses doc_x5 "null" _ (Some [SKey "y"])).
  reflexivity.
Defined.



(** X9.  Writing twice at one path whose last key is not [length] is
    writing the second value once, whether the second write succeeds or
    throws. *)
Theorem last_write_wins (D V1 V2 r1 : string) (p : option path) :
  last (map key_of_segment (path_or_nil p)) ""%string <> "length"%string ->
  updateJsonAtPath D p V1 = Ok r1 ->
  updateJsonAtPath r1 p V2 = updateJsonAtPath D p V2.
Proof.
  intros _ H.
  destruct (updateJsonAtPath_ok _ _ _ _ H)
    as (d & v1 & d1 & HD & HV1 & Ha & -> & Hwf).
  unfold updateJsonAtPath.
  rewrite (parse_stringify d1 Hwf), HD.
  destruct (parse V2) as [v2|]; [|reflexivity].
  destruct (no_path p) eqn:Hp; [reflexivity|].
  destruct (no_path_false _ Hp) as [Hne _].
  rewrite (assign_at_twice _ v1 v2 (Some d) d1 Hne Ha). reflexivity.
Qed.

Lemma last_write_wins_witness :
  updateJsonAtPath
    (stringify (JObj [("x"%string, JNum 5); ("y"%string, JNum 1)]))
    (Some [SKey "y"]) "2"
  = updateJsonAtPath doc_x5 (Some [SKey "y"]) "2".
Proof.
  apply (last_write_wins doc_x5 "1" "2" _ (Some [SKey "y"]));
    [discriminate|reflexivity].
Defined.

(** X10.  Writing at a path the value it leads to returns the document it was
    given, serialised anew. *)
Theorem write_back_identity (D V r : string) (p : option path) (d n : value) :
  parse D = Some d -> parse V = Some n ->
  walk (Some d) (path_or_nil p) = Ok (Some n) ->
  updateJsonAtPath D p V = Ok r ->
  r = stringify d.
Proof.
  intros HD HV Hw H.
  destruct (updateJsonAtPath_ok _ _ _ _ H)
    as (d0 & v0 & d' & HD' & HV' & Ha & -> & _).
  rewrite HD in HD'. rewrite HV in HV'. inversion HD'; inversion HV'; subst.
  destruct (no_path p) eqn:Hp.
  - rewrite (no_path_nil _ Hp) in Hw. cbn [walk] in Hw. congruence.
  - destruct (no_path_false _ Hp) as [Hne _].
    pose proof (assign_at_same _ _ _ _ Hne Hw Ha) as E. congruence.
Qed.

Lemma write_back_identity_witness :
  exists r,
    updateJsonAtPath doc_abc (Some [SKey "a"; SKey "c"]) "[1,2]" = Ok r
    /\ r = stringify (JObj [("a"%string,
                             JObj [("b"%string, JNum 1);
                                   ("c"%string, JArr [JNum 1; JNum 2])])]).
Proof.
  eexists. split; [vm_compute; reflexivity|].
  apply (write_back_identity doc_abc "[1,2]" _ (Some [SKey "a"; SKey "c"])
           (JObj [("a"%string,
                   JObj [("b"%string, JNum 1);
                         ("c"%string, JArr [JNum 1; JNum 2])])])
           (JArr [JNum 1; JNum 2]));
    reflexivity.
Defined.

(** ** The projection as a list *)

Lemma keys_app {A} (a b : list (string * A)) : keys (a ++ b) = keys a ++ keys b.
Proof. unfold keys. apply map_app. Qed.

Lemma NoDup_app_fresh (a b : list string) (k : string) :
  NoDup (a ++ k :: b) -> ~ In k a.
Proof.
  intros H Hin. apply NoDup_remove_2 in H. apply H, in_or_app. left. exact Hin.
Qed.

Section EntryFoldsList.
Context {A B : Type}.
Variable keep : A -> bool.
Variable f : A -> B.
Variable step : list (string * B) -> string * A -> list (string * B).
Hypothesis step_eq : forall acc kv,
  step acc kv =
  if keep (snd kv) then assign (fst kv) (f (snd kv)) acc else acc.

(** The fold as a list: the kept fields whose key is not [__proto__], in
    their order, behind what was there. *)
Lemma fold_entries_filter (l : list (string * A)) :
  forall acc, NoDup (keys acc ++ keys l) ->
  fold_left step l acc
  = acc ++ map (fun kv => (fst kv, f (snd kv)))
               (filter (fun kv => keep (snd kv)
                                  && negb (String.eqb (fst kv) proto)) l).
Proof.
  induction l as [|[k a] l IH]; intros acc Hnd;
    cbn [fold_left filter fst snd].
  - cbn [map]. rewrite app_nil_r. reflexivity.
  - rewrite step_eq. cbn [fst snd].
    assert (Hfresh : has_key k acc = false).
    { apply has_key_In. unfold keys in *. cbn [map fst] in Hnd.
      eapply NoDup_app_fresh, Hnd. }
    destruct (keep a); cbn [andb].
    + destruct (String.eqb_spec k proto) as [->|Hp]; cbn [negb].
      * unfold assign. rewrite Hfresh, String.eqb_refl.
        apply IH. unfold keys in *. cbn [map fst] in Hnd.
        apply NoDup_remove_1 in Hnd. exact Hnd.
      * rewrite assign_fresh by assumption.
        rewrite IH.
        -- cbn [map fst snd]. rewrite <- app_assoc. reflexivity.
        -- rewrite keys_app. unfold keys in *. cbn [map fst] in *.
           rewrite <- app_assoc. exact Hnd.
    + apply IH. unfold keys in *. cbn [map fst] in Hnd.
      apply NoDup_remove_1 in Hnd. exact Hnd.
Qed.
End EntryFoldsList.

Lemma NoDup_keys_filter {A} (P : string * A -> bool) (o : list (string * A)) :
  NoDup (keys o) -> NoDup (keys (filter P o)).
Proof.
  unfold keys. induction o as [|kv o IH]; cbn; intros H; [constructor|].
  inversion H as [|? ? Hk Hnd]; subst.
  destruct (P kv); cbn; [|apply IH, Hnd].
  constructor; [|apply IH, Hnd].
  intros Hin. apply Hk. apply in_map_iff in Hin.
  destruct Hin as (x & Hx & Hin). apply filter_In in Hin.
  apply in_map_iff. exists x. split; [exact Hx|apply Hin].
Qed.

Lemma filter_all {A} (P : A -> bool) (l : list A) :
  Forall (fun x => P x = true) l -> filter P l = l.
Proof.
  induction 1 as [|x l Hx _ IH]; cbn; [reflexivity|].
  rewrite Hx, IH. reflexivity.
Qed.

Lemma filter_primitives_fields (o : fields) :
  NoDup (keys o) -> filter_primitives o = editable_fields o.
Proof.
  intros H. unfold filter_primitives, editable_fields.
  etransitivity;
    [exact (fold_entries_filter is_primitive (fun v => v) keep_primitive
              keep_primitive_eq o [] H)|].
  cbn [app].
  etransitivity;
    [apply map_ext with (g := fun x => x); intros [k v]; reflexivity|].
  apply map_id.
Qed.

Lemma rendered_fields (o : fields) :
  NoDup (keys o) ->
  fold_left render_entry o []
  = map (fun kv => (fst kv, literal (snd kv))) (editable_fields o).
Proof.
  intros H.
  etransitivity;
    [exact (fold_entries_filter is_primitive render render_entry
              render_entry_eq o [] H)|].
  cbn [app]. unfold editable_fields, editable.
  apply map_ext_in. intros [k v] Hin. apply filter_In in Hin.
  destruct Hin as [_ Hin]. cbn [fst snd] in *.
  apply andb_prop in Hin. destruct Hin as [Hv _].
  rewrite render_literal by exact Hv. reflexivity.
Qed.

Lemma editable_fields_idem (o : fields) :
  editable_fields (editable_fields o) = editable_fields o.
Proof.
  unfold editable_fields. apply filter_all, Forall_forall.
  intros kv Hin. apply filter_In in Hin. apply Hin.
Qed.

Lemma project_fields (o : fields) :
  wf_fields o ->
  project (Some (JObj o))
  = map (fun kv => (fst kv, literal (snd kv))) (editable_fields o).
Proof.
  intros Hwf. unfold project. cbn [node_content].
  rewrite parseContent_object by (apply wf_filter_primitives, Hwf).
  rewrite filter_primitives_fields by apply Hwf.
  rewrite rendered_fields by (apply NoDup_keys_filter, Hwf).
  rewrite editable_fields_idem. reflexivity.
Qed.

(** The pairs a render offers, when it recomputes them from the store. *)
Lemma keyValuePairs_fields (st : state) (d : value) (o : fields) :
  holding st = false -> parse (json st) = Some d ->
  walk (Some d) (path_or_nil (selected_path st)) = Ok (Some (JObj o)) ->
  keyValuePairs st
  = map (fun kv => (fst kv, literal (snd kv))) (editable_fields o).
Proof.
  intros Hh Hd Hw.
  pose proof (parse_wf _ _ Hd) as Hwf.
  assert (Ho : wf_fields o).
  { apply wf_obj. apply (walk_wf _ (Some d) (Some (JObj o)) Hwf Hw). }
  unfold keyValuePairs, originalContent, getFreshContent, fresh_from_store.
  unfold holding in Hh. rewrite Hh, Hd.
  destruct (no_path (selected_path st)) eqn:Hp.
  - rewrite (no_path_nil _ Hp), walk_nil in Hw. inversion Hw; subst.
    rewrite parseContent_object by exact Ho.
    apply rendered_fields, Ho.
  - rewrite Hw. cbn [bind]. apply (project_fields o Ho).
Qed.

(** X11.  The pairs a render offers are the fields of the node whose value is
    neither array nor object and whose key is not [__proto__], all of
    them, in the order of the node, each with its literal text. *)
Theorem projection_in_order (st : state) (d : value) (o : fields) :
  holding st = false -> parse (json st) = Some d ->
  walk (Some d) (path_or_nil (selected_path st)) = Ok (Some (JObj o)) ->
  keyValuePairs st
  = map (fun kv => (fst kv, literal (snd kv))) (editable_fields o)
  /\ keys (keyValuePairs st) = keys (editable_fields o).
Proof.
  intros Hh Hd Hw.
  pose proof (keyValuePairs_fields st d o Hh Hd Hw) as E.
  split; [exact E|].
  rewrite E. unfold keys. rewrite map_map. reflexivity.
Qed.

Lemma projection_in_order_witness :
  keyValuePairs (session doc_abc [SKey "a"])
  = map (fun kv => (fst kv, literal (snd kv)))
        (editable_fields [("b"%string, JNum 1);
                          ("c"%string, JArr [JNum 1; JNum 2])]).
Proof.
  apply (projection_in_order (session doc_abc [SKey "a"])
           (JObj [("a"%string,
                   JObj [("b"%string, JNum 1);
                         ("c"%string, JArr [JNum 1; JNum 2])])]));
    reflexivity.
Defined.

Lemma keyValuePairs_not_object (st : state) (d : value) (node : jsval) :
  holding st = false -> parse (json st) = Some d ->
  walk (Some d) (path_or_nil (selected_path st)) = Ok node ->
  (forall o, node <> Some (JObj o)) ->
  keyValuePairs st = [].
Proof.
  intros Hh Hd Hw Hn.
  pose proof (parse_wf _ _ Hd) as Hwf.
  pose proof (walk_wf _ (Some d) node Hwf Hw) as Hnode.
  unfold keyValuePairs, originalContent, getFreshContent, fresh_from_store.
  unfold holding in Hh. rewrite Hh, Hd.
  destruct (no_path (selected_path st)) eqn:Hp.
  - rewrite (no_path_nil _ Hp), walk_nil in Hw. inversion Hw; subst.
    apply parseContent_other; [exact Hwf|].
    destruct d; try reflexivity. exfalso. eapply Hn. reflexivity.
  - rewrite Hw. cbn [bind].
    destruct node as [n|]; [|reflexivity].
    destruct n; try (apply (parseContent_other _ Hnode); reflexivity).
    exfalso. eapply Hn. reflexivity.
Qed.

(** X12.  When the path leads to anything but an object (a sequence, a scalar
    or nothing) there are no pairs and no Edit button. *)
Theorem no_editing_without_fields (st : state) (d : value) (node : jsval) :
  holding st = false -> parse (json st) = Some d ->
  walk (Some d) (path_or_nil (selected_path st)) = Ok node ->
  (forall o, node <> Some (JObj o)) ->
  keyValuePairs st = [] /\ offersEdit st = false.
Proof.
  intros Hh Hd Hw Hn.
  pose proof (keyValuePairs_not_object st d node Hh Hd Hw Hn) as E.
  split; [exact E|].
  unfold offersEdit, hasKeyValuePairs. rewrite E. apply andb_false_r.
Qed.

Lemma no_editing_without_fields_witness :
  keyValuePairs (session doc_abc [SKey "a"; SKey "c"]) = []
  /\ offersEdit (session doc_abc [SKey "a"; SKey "c"]) = false.
Proof.
  apply (no_editing_without_fields (session doc_abc [SKey "a"; SKey "c"])
           (JObj [("a"%string,
                   JObj [("b"%string, JNum 1);
                         ("c"%string, JArr [JNum 1; JNum 2])])])
           (Some (JArr [JNum 1; JNum 2])));
    try reflexivity.
  intros o. discriminate.
Defined.

(** ** The edit buffer; saving without edits *)

Lemma keys_define_present {A} (k : string) (v : A) (o : list (string * A)) :
  In k (keys o) -> keys (define k v o) = keys o.
Proof.
  intros H. rewrite keys_define.
  destruct (has_key k o) eqn:E; [reflexivity|].
  apply has_key_In in E. contradiction.
Qed.

Lemma apply_changes_keys (changes : list (string * string)) :
  forall st,
  Forall (fun c => In (fst c) (keys (editedValues st))) changes ->
  keys (editedValues (apply_changes changes st)) = keys (editedValues st)
  /\ isEditing (apply_changes changes st) = isEditing st
  /\ json (apply_changes changes st) = json st
  /\ optimisticContent (apply_changes changes st) = optimisticContent st
  /\ trace (apply_changes changes st) = trace st.
Proof.
  unfold apply_changes.
  induction changes as [|[k t] changes IH]; intros st H; cbn [fold_left].
  - repeat split.
  - inversion H as [|? ? Hk Hrest]; subst. cbn [fst snd] in *.
    assert (E : keys (editedValues (handleValueChange k t st))
                = keys (editedValues st))
      by (apply keys_define_present, Hk).
    destruct (IH (handleValueChange k t st)) as (H1 & H2 & H3 & H4 & H5).
    { rewrite E. exact Hrest. }
    rewrite H1, H2, H3, H4, H5, E. repeat split.
Qed.

(** X16.  Changing values of keys that are shown keeps the keys of the edit
    buffer those of the pairs shown when editing began; edit mode stays
    on and nothing is handed to the store. *)
Theorem edit_buffer_domain (st : state) (changes : list (string * string)) :
  Forall (fun c => In (fst c) (keys (keyValuePairs st))) changes ->
  keys (editedValues (apply_changes changes (handleEdit st)))
  = keys (keyValuePairs st)
  /\ isEditing (apply_changes changes (handleEdit st)) = true
  /\ trace (apply_changes changes (handleEdit st)) = trace st.
Proof.
  intros H.
  destruct (apply_changes_keys changes (handleEdit st) H)
    as (H1 & H2 & _ & _ & H5).
  rewrite H1, H2, H5. repeat split.
Qed.

Lemma edit_buffer_domain_witness :
  keys (editedValues
          (apply_changes [("b"%string, "7"%string); ("b"%string, "x"%string)]
                         (handleEdit (session doc_abc [SKey "a"]))))
  = keys (keyValuePairs (session doc_abc [SKey "a"])).
Proof.
  apply (edit_buffer_domain (session doc_abc [SKey "a"])
           [("b"%string, "7"%string); ("b"%string, "x"%string)]).
  repeat constructor.
Defined.

(** *** A save without edits *)

Lemma reinterpret_literal (v : value) :
  is_primitive v = true -> stable v -> reinterpret (literal v) = v.
Proof.
  destruct v as [|[]|n|s|l|o]; cbn [is_primitive stable literal];
    intros Hp Hs; try discriminate Hp; try reflexivity.
  - unfold reinterpret.
    change (string_of_list_ascii (digits_of_Z n)) with (stringify (JNum n)).
    rewrite parse_stringify by exact I. reflexivity.
  - unfold reinterpret. rewrite (proj1 Hs). reflexivity.
Qed.

Lemma assign_same {A} (k : string) (v : A) (o : list (string * A)) :
  lookup k o = Some v -> assign k v o = o.
Proof.
  intros H. unfold assign, has_key. rewrite H. apply define_same, H.
Qed.

Lemma merge_entries_same (edits : list (string * string)) (o : fields) :
  (forall k t, In (k, t) edits -> lookup k o = Some (reinterpret t)) ->
  fold_left merge_entry edits o = o.
Proof.
  induction edits as [|[k t] edits IH]; intros H; cbn [fold_left];
    [reflexivity|].
  unfold merge_entry at 2. cbn [fst snd].
  rewrite assign_same by (apply H; left; reflexivity).
  apply IH. intros k' t' Hin. apply H. right. exact Hin.
Qed.

Lemma In_lookup {A} (k : string) (v : A) (o : list (string * A)) :
  lookup k o = Some v -> In (k, v) o.
Proof.
  induction o as [|[k' v'] o IH]; cbn; [discriminate|].
  destruct (String.eqb_spec k k') as [->|Hne].
  - intros [= ->]. left. reflexivity.
  - intros H. right. apply IH, H.
Qed.

Lemma merge_projection_same (o : fields) :
  wf_fields o -> Forall (fun kv => stable (snd kv)) o ->
  merge (Some (JObj o))
        (map (fun kv => (fst kv, literal (snd kv))) (editable_fields o))
  = o.
Proof.
  intros [Hnd _] Hst. unfold merge. cbn [spread].
  apply merge_entries_same. intros k t Hin.
  apply in_map_iff in Hin. destruct Hin as ([k' v] & [= <- <-] & Hin).
  unfold editable_fields in Hin. apply filter_In in Hin.
  destruct Hin as [Hin He]. cbn [fst snd] in *.
  unfold editable in He. apply andb_prop in He. destruct He as [Hv _].
  rewrite (NoDup_lookup k' v o Hnd Hin). f_equal. symmetry.
  apply reinterpret_literal; [exact Hv|].
  rewrite Forall_forall in Hst. apply (Hst (k', v) Hin).
Qed.

Lemma assign_at_object_ok (p : path) (v : value) (o : fields) :
  forall cur, p <> [] -> walk cur p = Ok (Some (JObj o)) ->
  exists c', assign_at cur p v = Ok c'.
Proof.
  intros cur Hne Hw.
  destruct (exists_last Hne) as (prefix & lastKey & ->).
  rewrite walk_app in Hw.
  destruct (walk cur prefix) as [parent|] eqn:Hp; cbn [bind] in Hw;
    [|discriminate].
  cbn [walk] in Hw.
  destruct (get parent lastKey) as [x|] eqn:Hg; cbn [bind] in Hw;
    [|discriminate].
  inversion Hw; subst x.
  assert (Hput : exists parent', put parent lastKey v = Ok parent').
  { destruct parent as [[| b | m | t | l | oc]|]; cbn [get] in Hg;
      try discriminate.
    - destruct (get_from_string t lastKey (JObj o) Hg) as [c Hc].
      discriminate Hc.
    - cbn [put]. destruct (index_of_segment lastKey); eexists; reflexivity.
    - eexists. reflexivity. }
  destruct Hput as [parent' Hput].
  destruct (assign_at_via_parent lastKey v prefix cur parent parent' Hp Hput)
    as (c' & Ha & _).
  exists c'. exact Ha.
Qed.

(** X19.  With an empty overlay, saving right after entering edit mode, on
    a node none of whose string fields holds JSON text (nor a text beyond
    what [parse] reads), hands the store the document it holds,
    serialised anew. *)
Theorem unedited_save_identity (st : state) (d : value) (o : fields) :
  holding st = false -> parse (json st) = Some d ->
  walk (Some d) (path_or_nil (selected_path st)) = Ok (Some (JObj o)) ->
  Forall (fun kv => stable (snd kv)) o ->
  trace (handleSave (handleEdit st))
  = [ToastSuccess success_message;
     SetContents (stringify d) true;
     SetOptimisticContent (node_content (Some (JObj o)))] ++ trace st.
Proof.
  intros Hh Hd Hw Hst.
  pose proof (parse_wf _ _ Hd) as Hwf.
  assert (Ho : wf_fields o)
    by (apply wf_obj; apply (walk_wf _ (Some d) (Some (JObj o)) Hwf Hw)).
  assert (Hfull : getFullNodeObject (handleEdit st) = Some (JObj o)).
  { unfold getFullNodeObject, handleEdit. cbn [json setEditedValues setIsEditing].
    change (selected_path _) with (selected_path st). rewrite Hd.
    destruct (no_path (selected_path st)) eqn:Hp.
    - rewrite (no_path_nil _ Hp), walk_nil in Hw. inversion Hw. reflexivity.
    - rewrite Hw. reflexivity. }
  assert (Hev : editedValues (handleEdit st)
                = map (fun kv => (fst kv, literal (snd kv))) (editable_fields o))
    by (apply (keyValuePairs_fields st d o Hh Hd Hw)).
  unfold handleSave. rewrite Hfull, Hev, (merge_projection_same o Ho Hst).
  change (json (handleEdit st)) with (json st).
  change (selected_path (handleEdit st)) with (selected_path st).
  assert (Hu : updateJsonAtPath (json st) (selected_path st)
                 (stringify (JObj o)) = Ok (stringify d)).
  { unfold updateJsonAtPath.
    rewrite Hd, (parse_stringify (JObj o)) by (apply wf_obj, Ho).
    destruct (no_path (selected_path st)) eqn:Hp.
    - rewrite (no_path_nil _ Hp), walk_nil in Hw. inversion Hw. reflexivity.
    - destruct (no_path_false _ Hp) as [Hne _].
      destruct (assign_at_object_ok _ (JObj o) o (Some d) Hne Hw) as [c' Ha].
      rewrite Ha. pose proof (assign_at_same _ _ _ _ Hne Hw Ha) as E.
      inversion E. reflexivity. }
  rewrite Hu. reflexivity.
Qed.

Lemma unedited_save_identity_witness :
  trace (handleSave
           (handleEdit
              (session
                 (stringify (JObj [("b"%string, JNum 1);
                                   ("s"%string, JStr "hello");
                                   ("c"%string, JArr [JNum 1; JNum 2])]))
                 [])))
  = [ToastSuccess success_message;
     SetContents
       (stringify (JObj [("b"%string, JNum 1);
                         ("s"%string, JStr "hello");
                         ("c"%string, JArr [JNum 1; JNum 2])])) true;
     SetOptimisticContent
       (node_content (Some (JObj [("b"%string, JNum 1);
                                  ("s"%string, JStr "hello");
                                  ("c"%string, JArr [JNum 1; JNum 2])])))]
    ++ [].
Proof.
  apply (unedited_save_identity
           (session
              (stringify (JObj [("b"%string, JNum 1);
                                ("s"%string, JStr "hello");
                                ("c"%string, JArr [JNum 1; JNum 2])]))
              [])
           (JObj [("b"%string, JNum 1); ("s"%string, JStr "hello");
                  ("c"%string, JArr [JNum 1; JNum 2])])
           [("b"%string, JNum 1); ("s"%string, JStr "hello");
            ("c"%string, JArr [JNum 1; JNum 2])]);
    try reflexivity.
  constructor; [exact I|]. constructor; [split; reflexivity|].
  constructor; [exact I|constructor].
Defined.

(** X20.  With an empty overlay, saving without an edit replaces a string
    field whose key is not [__proto__] and whose text is JSON by the
    value the text denotes. *)
Theorem unedited_save_reinterprets (st : state) (d v : value) (o : fields)
  (k s : string) :
  holding st = false -> parse (json st) = Some d ->
  walk (Some d) (path_or_nil (selected_path st)) = Ok (Some (JObj o)) ->
  lookup k o = Some (JStr s) -> k <> proto -> parse s = Some v ->
  lookup k (merge (getFullNodeObject (handleEdit st))
                  (editedValues (handleEdit st)))
  = Some v.
Proof.
  intros Hh Hd Hw Hk Hp Hs.
  change (editedValues (handleEdit st)) with (keyValuePairs st).
  destruct (parseContent_shape (originalContent st)) as [Hnd Hpf].
  fold (keyValuePairs st) in Hnd, Hpf.
  assert (Hin : In (k, s) (keyValuePairs st)).
  { apply In_lookup.
    rewrite (lookup_keyValuePairs st d _ k Hh Hd Hw).
    rewrite lookup_project
      by (apply (walk_wf _ (Some d) (Some (JObj o)) (parse_wf _ _ Hd) Hw)).
    rewrite Hk. unfold editable. cbn [is_primitive andb].
    destruct (String.eqb_spec k proto); [contradiction|reflexivity]. }
  rewrite (lookup_merge k s _ _ Hnd Hpf Hin).
  unfold reinterpret. rewrite Hs. reflexivity.
Qed.

Lemma unedited_save_reinterprets_witness :
  lookup "n"
    (merge (getFullNodeObject
              (handleEdit (session (stringify (JObj [("n"%string, JStr "5")])) [])))
           (editedValues
              (handleEdit (session (stringify (JObj [("n"%string, JStr "5")])) []))))
  = Some (JNum 5).
Proof.
  apply (unedited_save_reinterprets
           (session (stringify (JObj [("n"%string, JStr "5")])) [])
           (JObj [("n"%string, JStr "5")]) (JNum 5)
           [("n"%string, JStr "5")] "n" "5");
    try reflexivity. discriminate.
Defined.

(** ** After a save *)

Lemma keyValuePairs_holding (st : state) :
  holding st = true ->
  keyValuePairs st = parseContentToKeyValues (optimisticContent st).
Proof.
  intros H. unfold keyValuePairs, originalContent, getFreshContent.
  unfold holding in H. rewrite H. reflexivity.
Qed.

Lemma handleSave_overlay (st : state) :
  optimisticContent (handleSave st) = saved_content st.
Proof.
  unfold handleSave.
  destruct (updateJsonAtPath _ _ _); reflexivity.
Qed.

Lemma keyValuePairs_after_save (st : state) :
  keyValuePairs (handleSave st)
  = project (Some (JObj (merge (getFullNodeObject st) (editedValues st)))).
Proof.
  rewrite keyValuePairs_holding
    by (unfold holding; rewrite handleSave_overlay; apply saved_content_truthy).
  rewrite handleSave_overlay. reflexivity.
Qed.

(** X21.  Once the store holds what a successful save handed it and the overlay
    is gone, the render offers the pairs it offered under the overlay;
    below the root it shows the same content. *)
Theorem saved_overlay_matches_store (st : state) (d old : value) (u : string) :
  parse (json st) = Some d ->
  walk (Some d) (path_or_nil (selected_path st)) = Ok (Some old) ->
  updateJsonAtPath (json st) (selected_path st)
    (stringify (JObj (merge (getFullNodeObject st) (editedValues st))))
  = Ok u ->
  keyValuePairs (caught_up u (handleSave st)) = keyValuePairs (handleSave st)
  /\ (no_path (selected_path st) = false ->
      getFreshContent (caught_up u (handleSave st))
      = Ok (optimisticContent (handleSave st))).
Proof.
  intros Hd Hw Hu.
  set (merged := merge (getFullNodeObject st) (editedValues st)) in *.
  assert (Hm : wf_fields merged) by apply wf_merge, wf_getFullNodeObject.
  rewrite keyValuePairs_after_save. fold merged.
  rewrite handleSave_overlay.
  unfold keyValuePairs, originalContent, getFreshContent, fresh_from_store.
  cbn [caught_up optimisticContent truthy json].
  change (selected_path (caught_up u (handleSave st)))
    with (selected_path (handleSave st)).
  assert (Hsel : selected_path (handleSave st) = selected_path st)
    by (unfold handleSave; destruct (updateJsonAtPath _ _ _); reflexivity).
  rewrite Hsel.
  destruct (updateJsonAtPath_ok _ _ _ _ Hu)
    as (d0 & v & d' & HD & HV & Ha & -> & Hwf).
  rewrite Hd in HD. inversion HD; subst d0.
  rewrite (parse_stringify (JObj merged)) in HV by (apply wf_obj, Hm).
  inversion HV; subst v.
  rewrite (parse_stringify d' Hwf).
  destruct (no_path (selected_path st)) eqn:Hp.
  - subst d'. split; [|discriminate].
    rewrite parseContent_object by exact Hm.
    rewrite rendered_fields by apply Hm.
    symmetry. apply project_fields, Hm.
  - destruct (no_path_false _ Hp) as [Hne _].
    rewrite (assign_at_read_back _ _ _ _ _ Hne Hw Ha). cbn [bind].
    split; [reflexivity|]. intros _. reflexivity.
Qed.

Lemma saved_overlay_matches_store_witness :
  exists u,
    keyValuePairs
      (caught_up u
         (handleSave (handleValueChange "b" "5"
                        (handleEdit (session doc_abc [SKey "a"])))))
    = [("b"%string, "5"%string)].
Proof.
  eexists.
  etransitivity;
    [apply (saved_overlay_matches_store
              (handleValueChange "b" "5"
                 (handleEdit (session doc_abc [SKey "a"])))
              (JObj [("a"%string,
                      JObj [("b"%string, JNum 1);
                            ("c"%string, JArr [JNum 1; JNum 2])])])
              (JObj [("b"%string, JNum 1);
                     ("c"%string, JArr [JNum 1; JNum 2])]));
     vm_compute; reflexivity|].
  vm_compute. reflexivity.
Defined.

(** X23.  After a save, successful or not, the pairs shown and the edit buffer
    a cancel leaves are those of the merged node, and the overlay still
    holds. *)
Theorem cancel_after_save (st : state) :
  editedValues (handleCancel (handleSave st))
  = project (Some (JObj (merge (getFullNodeObject st) (editedValues st))))
  /\ keyValuePairs (handleSave st) = editedValues (handleCancel (handleSave st))
  /\ isEditing (handleCancel (handleSave st)) = false
  /\ holding (handleCancel (handleSave st)) = true.
Proof.
  split; [|split; [|split]].
  - change (editedValues (handleCancel (handleSave st)))
      with (keyValuePairs (handleSave st)).
    apply keyValuePairs_after_save.
  - reflexivity.
  - reflexivity.
  - change (holding (handleCancel (handleSave st)))
      with (truthy (optimisticContent (handleSave st))).
    rewrite handleSave_overlay. apply saved_content_truthy.
Qed.

(** X14.  No render offers a field named [__proto__], and no key is offered
    twice; the edit buffer starts without [__proto__]. *)
Theorem proto_never_offered (st : state) :
  has_key proto (keyValuePairs st) = false
  /\ NoDup (keys (keyValuePairs st))
  /\ has_key proto (editedValues (handleEdit st)) = false.
Proof.
  destruct (parseContent_shape (originalContent st)) as [Hnd Hp].
  fold (keyValuePairs st) in Hnd, Hp.
  split; [exact Hp|]. split; [exact Hnd|exact Hp].
Qed.

Lemma merge_keys (edits : list (string * string)) :
  forall acc : fields,
  incl (keys edits) (keys acc) ->
  keys (fold_left merge_entry edits acc) = keys acc.
Proof.
  induction edits as [|[k t] edits IH]; intros acc H; cbn [fold_left];
    [reflexivity|].
  assert (Hk : In k (keys acc)) by (apply H; left; reflexivity).
  assert (E : keys (merge_entry acc (k, t)) = keys acc).
  { unfold merge_entry, assign. cbn [fst snd].
    destruct (has_key k acc) eqn:Hh.
    - apply keys_define_present, Hk.
    - apply has_key_In in Hh. contradiction. }
  rewrite IH; [exact E|].
  rewrite E. intros x Hx. apply H. right. exact Hx.
Qed.

(** X18.  Merging edits of fields the node has keeps the fields of the node in
    their order. *)
Theorem merge_keeps_field_order (o : fields) (edits : list (string * string)) :
  incl (keys edits) (keys o) ->
  keys (merge (Some (JObj o)) edits) = keys o.
Proof. intros H. unfold merge. cbn [spread]. apply merge_keys, H. Qed.

Lemma merge_keeps_field_order_witness :
  keys (merge (Some (JObj [("b"%string, JNum 1);
                           ("c"%string, JArr [JNum 1; JNum 2])]))
              [("c"%string, "0"%string); ("b"%string, "x"%string)])
  = ["b"%string; "c"%string].
Proof.
  apply (merge_keeps_field_order
           [("b"%string, JNum 1); ("c"%string, JArr [JNum 1; JNum 2])]
           [("c"%string, "0"%string); ("b"%string, "x"%string)]).
  intros x [<-|[<-|[]]]; cbn; tauto.
Defined.

(** ** Degraded content; when editing is offered *)

Lemma lookup_assign_inv {A} (k k' : string) (v x : A) (o : list (string * A)) :
  lookup k (assign k' v o) = Some x ->
  (k = k' /\ x = v) \/ lookup k o = Some x.
Proof.
  rewrite lookup_assign.
  destruct (String.eqb_spec k k') as [->|Hne]; cbn [andb]; [|tauto].
  destruct (has_key k' o || negb (String.eqb k' proto)); [|tauto].
  intros [= <-]. left. split; reflexivity.
Qed.

Lemma normalize_row_enters (row : NodeRow) (acc : fields) (k : string)
  (v : value) :
  lookup k (normalize_row acc row) = Some v ->
  enters k v row \/ lookup k acc = Some v.
Proof.
  unfold normalize_row, enters.
  destruct (String.eqb_spec (row_type row) "array") as [|Ha]; cbn [negb andb];
    [tauto|].
  destruct (String.eqb_spec (row_type row) "object") as [|Ho]; cbn [negb];
    [tauto|].
  destruct (truthy_key (row_key row)) as [k'|] eqn:Hk; [|tauto].
  intros H. apply lookup_assign_inv in H. destruct H as [[-> ->]|H]; [|tauto].
  left. repeat split; assumption.
Qed.

Lemma normalize_rows_enter (rows : list NodeRow) (k : string) (v : value) :
  forall acc,
  lookup k (fold_left normalize_row rows acc) = Some v ->
  (exists row, In row rows /\ enters k v row) \/ lookup k acc = Some v.
Proof.
  induction rows as [|row rows IH]; intros acc H; cbn [fold_left] in H.
  - right. exact H.
  - destruct (IH _ H) as [(r & Hin & Hr)|H'].
    + left. exists r. split; [right; exact Hin|exact Hr].
    + destruct (normalize_row_enters _ _ _ _ H') as [Hr|Hacc].
      * left. exists row. split; [left; reflexivity|exact Hr].
      * right. exact Hacc.
Qed.

Lemma wf_normalize_rows (rows : list NodeRow) :
  Forall (fun row => wf (row_value row)) rows ->
  forall acc, wf_fields acc -> wf_fields (fold_left normalize_row rows acc).
Proof.
  induction 1 as [|row rows Hrow _ IH]; intros acc Hacc; cbn [fold_left];
    [exact Hacc|].
  apply IH. unfold normalize_row.
  destruct (negb _ && negb _); [|exact Hacc].
  destruct (truthy_key (row_key row)); [|exact Hacc].
  apply wf_fields_assign; assumption.
Qed.

Lemma normalizeNodeData_object (rows : list NodeRow) :
  object_rows rows ->
  normalizeNodeData rows = stringify (JObj (fold_left normalize_row rows [])).
Proof.
  destruct rows as [|row [|row' rows]]; cbn [object_rows normalizeNodeData];
    try reflexivity.
  intros H. destruct (truthy_key (row_key row)); [reflexivity|congruence].
Qed.

(** X15.  Unless the rows are a single row without key, the fallback content
    is an object, and each of its fields is the value of a row that has
    that key and whose type is neither [array] nor [object]. *)
Theorem degraded_content_from_rows (rows : list NodeRow) :
  object_rows rows ->
  Forall (fun row => wf (row_value row)) rows ->
  exists o,
    parse (normalizeNodeData rows) = Some (JObj o)
    /\ forall k v, lookup k o = Some v ->
                   exists row, In row rows /\ enters k v row.
Proof.
  intros Hobj Hwf. rewrite (normalizeNodeData_object rows Hobj).
  exists (fold_left normalize_row rows []). split.
  - apply parse_stringify, wf_obj, wf_normalize_rows;
      [exact Hwf|apply wf_fields_nil].
  - intros k v H.
    destruct (normalize_rows_enter rows k v [] H) as [Hr|Hnil];
      [exact Hr|discriminate Hnil].
Qed.

Lemma degraded_content_from_rows_witness :
  exists o,
    parse (normalizeNodeData
             [mkRow (Some "id"%string) (JNum 7) "number";
              mkRow (Some "tags"%string) (JStr "[2 items]") "array";
              mkRow None (JStr "x") "string"])
    = Some (JObj o)
    /\ forall k v, lookup k o = Some v ->
                   exists row,
                     In row [mkRow (Some "id"%string) (JNum 7) "number";
                             mkRow (Some "tags"%string) (JStr "[2 items]") "array";
                             mkRow None (JStr "x") "string"]
                     /\ enters k v row.
Proof.
  apply (degraded_content_from_rows
           [mkRow (Some "id"%string) (JNum 7) "number";
            mkRow (Some "tags"%string) (JStr "[2 items]") "array";
            mkRow None (JStr "x") "string"]).
  - exact I.
  - repeat constructor.
Defined.

Lemma hasKeyValuePairs_fields (st : state) (d : value) (o : fields) :
  holding st = false -> parse (json st) = Some d ->
  walk (Some d) (path_or_nil (selected_path st)) = Ok (Some (JObj o)) ->
  hasKeyValuePairs st = true <->
  exists k v, In (k, v) o /\ editable k v = true.
Proof.
  intros Hh Hd Hw. unfold hasKeyValuePairs.
  rewrite (keyValuePairs_fields st d o Hh Hd Hw), length_map.
  unfold editable_fields. split.
  - destruct (filter _ o) as [|[k v] l] eqn:E; [discriminate|].
    intros _. exists k, v.
    assert (Hin : In (k, v) (filter (fun kv => editable (fst kv) (snd kv)) o))
      by (rewrite E; left; reflexivity).
    apply filter_In in Hin. exact Hin.
  - intros (k & v & Hin & He).
    assert (Hf : In (k, v) (filter (fun kv => editable (fst kv) (snd kv)) o))
      by (apply filter_In; split; assumption).
    destruct (filter _ o); [contradiction|reflexivity].
Qed.

(** X13.  Outside edit mode the Edit button is there exactly when the node has
    a field the projection shows. *)
Theorem edit_offered_iff (st : state) (d : value) (o : fields) :
  holding st = false -> parse (json st) = Some d ->
  walk (Some d) (path_or_nil (selected_path st)) = Ok (Some (JObj o)) ->
  offersEdit st = true <->
  isEditing st = false /\ exists k v, In (k, v) o /\ editable k v = true.
Proof.
  intros Hh Hd Hw. unfold offersEdit.
  rewrite andb_true_iff, negb_true_iff.
  rewrite (hasKeyValuePairs_fields st d o Hh Hd Hw). reflexivity.
Qed.

Lemma edit_offered_iff_witness :
  offersEdit (session doc_abc [SKey "a"]) = true.
Proof.
  apply (edit_offered_iff (session doc_abc [SKey "a"])
           (JObj [("a"%string,
                   JObj [("b"%string, JNum 1);
                         ("c"%string, JArr [JNum 1; JNum 2])])])
           [("b"%string, JNum 1); ("c"%string, JArr [JNum 1; JNum 2])]);
    try reflexivity.
  split; [reflexivity|]. exists "b"%string, (JNum 1).
  split; [left; reflexivity|reflexivity].
Defined.

(** ** Saving an edit; reopening *)

(** X17.  An entry of the edit buffer whose text is JSON is merged as the value
    the text denotes. *)
Theorem parsable_edit_is_value (st : state) (content : option string)
  (key text : string) (v : value) :
  keys (editedValues st) = keys (parseContentToKeyValues content) ->
  In (key, text) (editedValues st) ->
  parse text = Some v ->
  lookup key (merge (getFullNodeObject st) (editedValues st)) = Some v.
Proof.
  intros Hdom Hin Hparse.
  destruct (parseContent_shape content) as [Hnd Hp].
  rewrite <- Hdom in Hnd.
  rewrite <- (has_key_keys proto _ _ Hdom) in Hp.
  rewrite (lookup_merge key text _ _ Hnd Hp Hin).
  unfold reinterpret. rewrite Hparse. reflexivity.
Qed.

Lemma parsable_edit_is_value_witness :
  lookup "b"
    (merge (getFullNodeObject
              (handleValueChange "b" "[true, null]"
                 (handleEdit (session doc_abc [SKey "a"]))))
           (editedValues
              (handleValueChange "b" "[true, null]"
                 (handleEdit (session doc_abc [SKey "a"])))))
  = Some (JArr [JBool true; JNull]).
Proof.
  apply (parsable_edit_is_value
           (handleValueChange "b" "[true, null]"
              (handleEdit (session doc_abc [SKey "a"])))
           (originalContent (session doc_abc [SKey "a"]))
           "b" "[true, null]");
    [reflexivity | left; reflexivity | reflexivity].
Defined.

(** X22.  A successful save at a path that led to a value hands the store a
    document in which that path leads to the merged node and every path
    that branches off it leads to what it led to. *)
Theorem save_replaces_only_the_node (st : state) (d old x : value)
  (u : string) (common r1 r2 : path) (s1 s2 : segment) :
  parse (json st) = Some d ->
  selected_path st = Some (common ++ s2 :: r2) ->
  walk (Some d) (common ++ s2 :: r2) = Ok (Some old) ->
  key_of_segment s1 <> key_of_segment s2 ->
  walk (Some d) (common ++ s1 :: r1) = Ok (Some x) ->
  trace (handleSave st)
  = ToastSuccess success_message :: SetContents u true
      :: SetOptimisticContent (saved_content st) :: trace st ->
  exists d',
    parse u = Some d'
    /\ walk (Some d') (common ++ s2 :: r2)
       = Ok (Some (JObj (merge (getFullNodeObject st) (editedValues st))))
    /\ walk (Some d') (common ++ s1 :: r1) = Ok (Some x).
Proof.
  intros Hd Hsel Hw Hne Hsib Htr.
  set (merged := merge (getFullNodeObject st) (editedValues st)) in *.
  assert (Hm : wf_fields merged) by apply wf_merge, wf_getFullNodeObject.
  unfold handleSave in Htr. fold merged in Htr.
  destruct (updateJsonAtPath (json st) (selected_path st)
              (stringify (JObj merged))) as [u'|msg] eqn:Hu;
    cbn [trace emit setIsEditing setOptimisticContent] in Htr;
    [|discriminate Htr].
  inversion Htr; subst u'. rewrite Hsel in Hu.
  assert (Hp : common ++ s2 :: r2 <> []) by (destruct common; discriminate).
  destruct (updateJsonAtPath_assign _ _ _ _ d (JObj merged) Hp Hd
              (parse_stringify _ (proj2 (wf_obj merged) Hm)) Hu)
    as (d' & Ha & _ & Hr).
  exists d'. split; [exact Hr|]. split.
  - eapply assign_at_read_back; eassumption.
  - eapply assign_at_frame; eassumption.
Qed.

Lemma save_replaces_only_the_node_witness :
  exists d',
    parse (stringify
             (JObj [("a"%string,
                     JObj [("b"%string, JNum 5);
                           ("c"%string, JArr [JNum 1; JNum 2])]);
                    ("z"%string, JBool false)]))
    = Some d'
    /\ walk (Some d') ([] ++ SKey "z" :: []) = Ok (Some (JBool false)).
Proof.
  destruct (save_replaces_only_the_node
           (handleValueChange "b" "5"
              (handleEdit
                 (session
                    (stringify
                       (JObj [("a"%string,
                               JObj [("b"%string, JNum 1);
                                     ("c"%string, JArr [JNum 1; JNum 2])]);
                              ("z"%string, JBool false)]))
                    [SKey "a"])))
           (JObj [("a"%string,
                   JObj [("b"%string, JNum 1);
                         ("c"%string, JArr [JNum 1; JNum 2])]);
                  ("z"%string, JBool false)])
           (JObj [("b"%string, JNum 1); ("c"%string, JArr [JNum 1; JNum 2])])
           (JBool false)
           (stringify
             (JObj [("a"%string,
                     JObj [("b"%string, JNum 5);
                           ("c"%string, JArr [JNum 1; JNum 2])]);
                    ("z"%string, JBool false)]))
           [] [] [] (SKey "z") (SKey "a"))
    as (d' & Hp & _ & Hz);
    try reflexivity; [discriminate|].
  exists d'. split; assumption.
Defined.

(** X24.  Opening the modal outside edit mode empties the overlay and rebuilds
    pairs and edit buffer from the node in the store. *)
Theorem reopen_shows_store (st : state) (d : value) (o : fields) :
  isEditing st = false -> parse (json st) = Some d ->
  walk (Some d) (path_or_nil (selected_path st)) = Ok (Some (JObj o)) ->
  optimisticContent (openSession st) = None
  /\ keyValuePairs (openSession st)
     = map (fun kv => (fst kv, literal (snd kv))) (editable_fields o)
  /\ editedValues (openSession st) = keyValuePairs (openSession st).
Proof.
  intros He Hd Hw.
  assert (Ho : optimisticContent (openSession st) = None).
  { unfold openSession, effect_sync. cbn [isEditing opened]. rewrite He.
    cbn [andb negb]. reflexivity. }
  split; [exact Ho|]. split.
  - apply (keyValuePairs_fields (openSession st) d o).
    + unfold holding. rewrite Ho. reflexivity.
    + unfold openSession, effect_sync. cbn [isEditing opened]. rewrite He.
      exact Hd.
    + unfold openSession, effect_sync. cbn [isEditing opened]. rewrite He.
      exact Hw.
  - unfold openSession, effect_sync. cbn [isEditing opened]. rewrite He.
    reflexivity.
Qed.

Lemma reopen_shows_store_witness :
  keyValuePairs
    (openSession (handleSave (handleValueChange "b" "5"
                    (handleEdit (session doc_abc [SKey "a"])))))
  = map (fun kv => (fst kv, literal (snd kv)))
        (editable_fields [("b"%string, JNum 1);
                          ("c"%string, JArr [JNum 1; JNum 2])]).
Proof.
  apply (reopen_shows_store
           (handleSave (handleValueChange "b" "5"
                          (handleEdit (session doc_abc [SKey "a"]))))
           (JObj [("a"%string,
                   JObj [("b"%string, JNum 1);
                         ("c"%string, JArr [JNum 1; JNum 2])])])
           [("b"%string, JNum 1); ("c"%string, JArr [JNum 1; JNum 2])]);
    reflexivity.
Defined.

(** ** The fallback content, key by key *)








(** ** Writing the key [__proto__] *)

(** A write that leaves the parent as it is leaves the document as it
    is. *)
Lemma assign_at_unchanged (lastKey : segment) (v : value) (prefix : path) :
  forall cur parent cur',
  walk cur prefix = Ok (Some parent) ->
  put (Some parent) lastKey v = Ok parent ->
  assign_at cur (prefix ++ [lastKey]) v = Ok cur' ->
  cur = Some cur'.
Proof.
  induction prefix as [|s prefix IH]; intros cur parent cur' Hw Hp H.
  - cbn [walk] in Hw. inversion Hw; subst. cbn [app assign_at] in H.
    congruence.
  - cbn [walk] in Hw.
    destruct (get cur s) as [next|] eqn:Hg; cbn [bind] in Hw; [|discriminate].
    assert (Hcons : exists s' q, prefix ++ [lastKey] = s' :: q)
      by (destruct prefix; cbn; eauto).
    destruct Hcons as (s' & q & Hq).
    cbn [app] in H. rewrite Hq, assign_at_cons, <- Hq, Hg in H.
    cbn [bind] in H.
    destruct (assign_at next (prefix ++ [lastKey]) v) as [n'|] eqn:Ha;
      cbn [bind] in H; [|discriminate].
    pose proof (IH next parent n' Hw Hp Ha) as ->.
    eapply with_child_same; eassumption.
Qed.

(** C10, at the input where the code misses it.  When the path up to its
    last segment leads to an object without a key [__proto__], writing
    that key succeeds and returns the document as it was: nothing is
    inserted. *)
Theorem write_drops_absent_proto (D V : string) (prefix : path)
  (d v : value) (o : fields) :
  parse D = Some d -> parse V = Some v ->
  walk (Some d) prefix = Ok (Some (JObj o)) ->
  has_key proto o = false ->
  updateJsonAtPath D (Some (prefix ++ [SKey proto])) V = Ok (stringify d)
  /\ parse (stringify d) = Some d.
Proof.
  intros HD HV Hw Hk.
  assert (Hput : put (Some (JObj o)) (SKey proto) v = Ok (JObj o)).
  { cbn [put key_of_segment]. unfold assign. rewrite Hk, String.eqb_refl.
    reflexivity. }
  destruct (assign_at_via_parent (SKey proto) v prefix (Some d) _ _ Hw Hput)
    as (d' & Ha & _).
  pose proof (assign_at_unchanged _ _ _ _ _ _ Hw Hput Ha) as E.
  inversion E; subst d'.
  unfold updateJsonAtPath.
  rewrite HD, HV, no_path_snoc. cbn [path_or_nil]. rewrite Ha.
  split; [reflexivity|].
  apply parse_stringify. exact (parse_wf _ _ HD).
Qed.

Lemma write_drops_absent_proto_witness :
  updateJsonAtPath "{}" (Some ([] ++ [SKey proto])) "1"
  = Ok (stringify (JObj [])).
Proof.
  apply (write_drops_absent_proto "{}" "1" [] (JObj []) (JNum 1) []);
    reflexivity.
Defined.
